(** * Maze walker: sphere/box collision, sliding movement, support height
      and orbit camera of [cubemaps_environment_mapping.cpp]

    The development embeds the movement and camera core of the program:
    [sphereIntersectsAABB], [collidesWithAnyObstacle],
    [highestPlatformTopAtXZ], [processInput], [mouse_callback],
    [scroll_callback] and the camera block of the main loop.  Around the
    core it embeds the main loop itself (clock, keys, events, close flag),
    the drawing of the boxes and of the character (model matrices, the wall
    vertex shader, the draw calls) and the two texture loaders, as the
    sequence of calls they make.

    Numbers.  A C++ [float] is read as the rational number it denotes and
    arithmetic is exact: rounding, infinities and NaN are outside the model.
    Every comparison and every branch of the source is kept as written, so
    the control flow of the model is the control flow of the program.  The
    one place where the roundings of binary32 arithmetic are written out
    is the sphere test, whose answer at the limit depends on them:
    [Rounded.sphereIntersectsAABB] takes the rounding as a parameter and
    [binary32.round] is the rounding of the program.

    Library functions.  [cos], [sin], [glm::radians] and [glm::inversesqrt]
    are not rational functions; the definitions that call them take them as
    section variables.  [glm::normalize], [glm::cross] and the vector
    operators are written out from their GLM definitions. *)

From Stdlib Require Import QArith Qround Qabs Qpower Lqa Lia PeanoNat List Bool
  Permutation.
From Stdlib Require String SpecFloat.
Import ListNotations.
Open Scope Q_scope.

(** ** Scalars and the [std::] helpers *)

Definition float : Type := Q.

(** [a < b] and [a <= b] as the program evaluates them. *)
Definition fltb (a b : float) : bool := negb (Qle_bool b a).
Definition fleb (a b : float) : bool := Qle_bool a b.

Module std.

(** [std::max(a, b)] is [(a < b) ? b : a]. *)
Definition max (a b : float) : float := if fltb a b then b else a.

(** [std::min(a, b)] is [(b < a) ? b : a]. *)
Definition min (a b : float) : float := if fltb b a then b else a.

End std.

(** ** Binary32 rounding

    The values of a C++ [float] are the binary32 numbers: an integer of at
    most 24 bits times a power of two not below [2^-149].  Each arithmetic
    operation of the program returns the binary32 number nearest to the
    exact result, a tie going to the one whose integer is even.
    [binary32.round] is that rounding on the rationals.  It puts no upper
    bound on the exponent: a result too large for a [float] is outside the
    model. *)

Module binary32.

(** [floor (log2 q)] for a positive [q]. *)
Definition ilog2 (q : Q) : Z :=
  let k := (Z.log2 (Qnum q) - Z.log2 (Zpos (Qden q)))%Z in
  if Qle_bool (2 ^ k) q then k else (k - 1)%Z.

(** The integer nearest to [q], a tie going to the even one. *)
Definition nearest_even (q : Q) : Z :=
  let f := Qfloor q in
  match Qcompare (q - inject_Z f) (1 # 2) with
  | Lt => f
  | Gt => (f + 1)%Z
  | Eq => if Z.even f then f else (f + 1)%Z
  end.

(** [q] in units of [2^e], the weight of the last of its 24 bits, rounded
    to an integer. *)
Definition round (q : Q) : float :=
  if Qeq_bool q 0 then 0
  else
    let e := Z.max (ilog2 (Qabs q) - 23) (-149) in
    Qred (inject_Z (nearest_even (q / 2 ^ e)) * 2 ^ e).

(** [2^-24], half the gap between 1 and the next binary32 number: the
    largest relative error of a rounding whose result is not subnormal. *)
Definition eps : float := 1 # 16777216.

(** [FLT_MAX], the largest binary32 number. *)
Definition max : float := 16777215 * 2 ^ 104.

(** An exact result whose rounding neither underflows nor overflows: zero,
    or of a magnitude from [2^-126], the least normal binary32 number, to
    [FLT_MAX]. *)
Definition normal (t : Q) : Prop :=
  t == 0 \/ 2 ^ (-126) <= Qabs t <= max.

End binary32.

(** ** [glm::vec3] *)

Module glm.

Record vec3 : Type := mkvec3 { x : float; y : float; z : float }.

Definition set_x (v : vec3) (a : float) : vec3 := mkvec3 a (y v) (z v).
Definition set_y (v : vec3) (a : float) : vec3 := mkvec3 (x v) a (z v).
Definition set_z (v : vec3) (a : float) : vec3 := mkvec3 (x v) (y v) a.

Definition add (a b : vec3) : vec3 :=
  mkvec3 (x a + x b) (y a + y b) (z a + z b).
Definition sub (a b : vec3) : vec3 :=
  mkvec3 (x a - x b) (y a - y b) (z a - z b).
Definition scale (v : vec3) (s : float) : vec3 :=
  mkvec3 (x v * s) (y v * s) (z v * s).
Definition dot (a b : vec3) : float := x a * x b + y a * y b + z a * z b.
Definition cross (a b : vec3) : vec3 :=
  mkvec3 (y a * z b - y b * z a) (z a * x b - z b * x a) (x a * y b - x b * y a).

(** [glm::normalize(v)] is [v * inversesqrt(dot(v, v))]. *)
Definition normalize (inversesqrt : float -> float) (v : vec3) : vec3 :=
  scale v (inversesqrt (dot v v)).

End glm.

Import glm.

(** ** Boxes and the collision tests *)

Record Box : Type := mkBox { min : vec3; max : vec3 }.

Definition sphereIntersectsAABB (center : vec3) (radius : float) (b : Box) : bool :=
  let x' := std.max (x (min b)) (std.min (x center) (x (max b))) in
  let y' := std.max (y (min b)) (std.min (y center) (y (max b))) in
  let z' := std.max (z (min b)) (std.min (z center) (z (max b))) in
  let distSq :=
    (x' - x center) * (x' - x center) + (y' - y center) * (y' - y center)
    + (z' - z center) * (z' - z center) in
  fltb distSq (radius * radius).

Fixpoint collidesWithAnyObstacle (obstacles : list Box) (center : vec3)
    (radius : float) : bool :=
  match obstacles with
  | [] => false
  | b :: rest =>
      if sphereIntersectsAABB center radius b then true
      else collidesWithAnyObstacle rest center radius
  end.

(** ** The sphere test with its roundings

    [Rounded.sphereIntersectsAABB rnd] is [sphereIntersectsAABB] with the
    rounding [rnd] written at each of the nine arithmetic operations of
    the source line; [std::max], [std::min] and [<] compare and do not
    round.  With [binary32.round] for [rnd] it is the function as the
    program computes it on binary32 inputs; with the identity for [rnd] it
    is [sphereIntersectsAABB] above. *)

Module Rounded.

Section Rounding.

Variable rnd : float -> float.

Definition sphereIntersectsAABB (center : vec3) (radius : float) (b : Box) : bool :=
  let x' := std.max (x (min b)) (std.min (x center) (x (max b))) in
  let y' := std.max (y (min b)) (std.min (y center) (y (max b))) in
  let z' := std.max (z (min b)) (std.min (z center) (z (max b))) in
  let distSq :=
    rnd (rnd (rnd (rnd (x' - x center) * rnd (x' - x center))
              + rnd (rnd (y' - y center) * rnd (y' - y center)))
         + rnd (rnd (z' - z center) * rnd (z' - z center))) in
  fltb distSq (rnd (radius * radius)).

(** The exact results that evaluation hands to [rnd]: the three
    differences, the three squares, the two sums and [radius * radius]. *)
Definition roundings (center : vec3) (radius : float) (b : Box) : list float :=
  let x' := std.max (x (min b)) (std.min (x center) (x (max b))) in
  let y' := std.max (y (min b)) (std.min (y center) (y (max b))) in
  let z' := std.max (z (min b)) (std.min (z center) (z (max b))) in
  [ x' - x center;
    y' - y center;
    z' - z center;
    rnd (x' - x center) * rnd (x' - x center);
    rnd (y' - y center) * rnd (y' - y center);
    rnd (z' - z center) * rnd (z' - z center);
    rnd (rnd (x' - x center) * rnd (x' - x center))
    + rnd (rnd (y' - y center) * rnd (y' - y center));
    rnd (rnd (rnd (x' - x center) * rnd (x' - x center))
         + rnd (rnd (y' - y center) * rnd (y' - y center)))
    + rnd (rnd (z' - z center) * rnd (z' - z center));
    radius * radius ].

End Rounding.

End Rounded.

(** ** The sphere test over the IEEE 754 operations of the standard library

    [SpecFloat] defines the IEEE 754 operations for every format; binary32
    is the format of precision 24 and [emax = 128].  The test is written
    once more over these operations, to compare [binary32.round] with. *)

Module IEEE754.

Definition binary32 : Type := SpecFloat.spec_float.

Definition sub : binary32 -> binary32 -> binary32 := SpecFloat.SFsub 24 128.
Definition mul : binary32 -> binary32 -> binary32 := SpecFloat.SFmul 24 128.
Definition add : binary32 -> binary32 -> binary32 := SpecFloat.SFadd 24 128.
Definition ltb : binary32 -> binary32 -> bool := SpecFloat.SFltb.

Module std.
Definition max (a b : binary32) : binary32 := if ltb a b then b else a.
Definition min (a b : binary32) : binary32 := if ltb b a then b else a.
End std.

(** The binary32 number nearest to the rational [q], for a [q] whose
    numerator and denominator in lowest terms are binary32 numbers. *)
Definition of_Q (q : Q) : binary32 :=
  SpecFloat.SFdiv 24 128
    (SpecFloat.binary_normalize 24 128 (Qnum (Qred q)) 0 false)
    (SpecFloat.binary_normalize 24 128 (Zpos (Qden (Qred q))) 0 false).

(** The rational a finite binary32 number denotes. *)
Definition value (f : binary32) : float :=
  match f with
  | SpecFloat.S754_finite s m e =>
      (if s then -1 else 1) * inject_Z (Zpos m) * 2 ^ e
  | _ => 0
  end.

Definition sphereIntersectsAABB (center : vec3) (radius : float) (b : Box) : bool :=
  let x' := std.max (of_Q (x (min b)))
              (std.min (of_Q (x center)) (of_Q (x (max b)))) in
  let y' := std.max (of_Q (y (min b)))
              (std.min (of_Q (y center)) (of_Q (y (max b)))) in
  let z' := std.max (of_Q (z (min b)))
              (std.min (of_Q (z center)) (of_Q (z (max b)))) in
  let distSq :=
    add (add (mul (sub x' (of_Q (x center))) (sub x' (of_Q (x center))))
             (mul (sub y' (of_Q (y center))) (sub y' (of_Q (y center)))))
        (mul (sub z' (of_Q (z center))) (sub z' (of_Q (z center)))) in
  ltb distSq (mul (of_Q radius) (of_Q radius)).

End IEEE754.

(** ** Highest platform under a point *)

(** One iteration of the loop of [highestPlatformTopAtXZ] on the pair
    [(found, best)]. *)
Definition highestPlatformStep (x z : float) (acc : bool * float) (p : Box)
    : bool * float :=
  let '(found, best) := acc in
  if fleb (glm.x (min p)) x && fleb x (glm.x (max p))
     && fleb (glm.z (min p)) z && fleb z (glm.z (max p))
  then if fltb best (y (max p)) then (true, y (max p)) else (found, best)
  else (found, best).

(** The result [Some best] stands for "returns [true] and writes [outTopY]",
    [None] for "returns [false] and leaves [outTopY] alone". *)
Definition highestPlatformTopAtXZ (platforms : list Box) (x z : float)
    : option float :=
  let '(found, best) :=
    fold_left (highestPlatformStep x z) platforms (false, -1e9) in
  if found then Some best else None.

(** ** The program's global variables *)

Record Globals : Type := mkGlobals {
  platforms : list Box;
  obstacles : list Box;
  objectPos : vec3;
  objectSpeed : float;
  objectRadius : float;
  camYaw : float;
  camPitch : float;
  camDistance : float;
  mouseSensitivity : float;
  lastX : float;
  lastY : float;
  firstMouse : bool;
  deltaTime : float
}.

(** The movement keys [processInput] polls with [glfwGetKey]: [true] is
    [GLFW_PRESS].  The escape key only asks the window to close and touches
    none of the globals, so it is left out. *)
Record Window : Type := mkWindow {
  KEY_W : bool;
  KEY_S : bool;
  KEY_A : bool;
  KEY_D : bool
}.

(** ** [processInput], collision part (the slide) *)

(** From [desired.y = objectPos.y] to the end of the [else] branch: the
    new value of [objectPos]. *)
Definition processInput_slide (obstacles : list Box) (objectRadius : float)
    (objectPos desired : vec3) : vec3 :=
  let desired := set_y desired (y objectPos) in
  let collide := collidesWithAnyObstacle obstacles desired objectRadius in
  if negb collide then desired
  else
    let tryX := set_x objectPos (x desired) in
    let objectPos :=
      if negb (collidesWithAnyObstacle obstacles tryX objectRadius)
      then set_x objectPos (x tryX) else objectPos in
    let tryZ := set_z objectPos (z desired) in
    let objectPos :=
      if negb (collidesWithAnyObstacle obstacles tryZ objectRadius)
      then set_z objectPos (z tryZ) else objectPos in
    objectPos.

(** The snap of [objectPos.y] to the highest platform under the actor. *)
Definition processInput_snap (platforms : list Box) (objectPos : vec3) : vec3 :=
  match highestPlatformTopAtXZ platforms (x objectPos) (z objectPos) with
  | Some topY => set_y objectPos topY
  | None => objectPos
  end.

(** ** Pointer and scroll callbacks *)

Definition mouse_callback (g : Globals) (xposIn yposIn : float) : Globals :=
  let xpos := xposIn in
  let ypos := yposIn in
  let lastX0 := if firstMouse g then xpos else lastX g in
  let lastY0 := if firstMouse g then ypos else lastY g in
  let xoffset := xpos - lastX0 in
  let yoffset := lastY0 - ypos in
  let xoffset := xoffset * mouseSensitivity g in
  let yoffset := yoffset * mouseSensitivity g in
  let camYaw' := camYaw g + xoffset in
  let camPitch' := camPitch g + yoffset in
  let camPitch' := if fltb 89.0 camPitch' then 89.0 else camPitch' in
  let camPitch' := if fltb camPitch' (-89.0) then -89.0 else camPitch' in
  {| platforms := platforms g;
     obstacles := obstacles g;
     objectPos := objectPos g;
     objectSpeed := objectSpeed g;
     objectRadius := objectRadius g;
     camYaw := camYaw';
     camPitch := camPitch';
     camDistance := camDistance g;
     mouseSensitivity := mouseSensitivity g;
     lastX := xpos;
     lastY := ypos;
     firstMouse := false;
     deltaTime := deltaTime g |}.

Definition scroll_callback (g : Globals) (xoffset yoffset : float) : Globals :=
  let camDistance' := camDistance g - yoffset * 0.4 in
  let camDistance' := std.max 1.2 (std.min 10.0 camDistance') in
  {| platforms := platforms g;
     obstacles := obstacles g;
     objectPos := objectPos g;
     objectSpeed := objectSpeed g;
     objectRadius := objectRadius g;
     camYaw := camYaw g;
     camPitch := camPitch g;
     camDistance := camDistance';
     mouseSensitivity := mouseSensitivity g;
     lastX := lastX g;
     lastY := lastY g;
     firstMouse := firstMouse g;
     deltaTime := deltaTime g |}.

(** ** The parts that call the math library *)

Section Libm.

Variables cos sin : float -> float.
Variable radians : float -> float.
Variable inversesqrt : float -> float.

(** [glm::normalize(glm::vec3(cos(yawRad), 0.0f, sin(yawRad)))]. *)
Definition headingForward (yawRad : float) : vec3 :=
  normalize inversesqrt (mkvec3 (cos yawRad) 0 (sin yawRad)).

(** The value of [desired] when [processInput] reaches
    [desired.y = objectPos.y]. *)
Definition processInput_desired (window : Window) (g : Globals) : vec3 :=
  let yawRad := radians (camYaw g) in
  let forward := headingForward yawRad in
  let right := normalize inversesqrt (cross forward (mkvec3 0 1 0)) in
  let velocity := objectSpeed g * deltaTime g in
  let desired := objectPos g in
  let desired := if KEY_W window then add desired (scale forward velocity) else desired in
  let desired := if KEY_S window then sub desired (scale forward velocity) else desired in
  let desired := if KEY_A window then sub desired (scale right velocity) else desired in
  let desired := if KEY_D window then add desired (scale right velocity) else desired in
  desired.

(** [objectPos] after the collision handling of [processInput], before
    the vertical snap. *)
Definition processInput_horizontal (window : Window) (g : Globals) : vec3 :=
  processInput_slide (obstacles g) (objectRadius g) (objectPos g)
    (processInput_desired window g).

Definition processInput (window : Window) (g : Globals) : Globals :=
  let objectPos' :=
    processInput_snap (platforms g) (processInput_horizontal window g) in
  {| platforms := platforms g;
     obstacles := obstacles g;
     objectPos := objectPos';
     objectSpeed := objectSpeed g;
     objectRadius := objectRadius g;
     camYaw := camYaw g;
     camPitch := camPitch g;
     camDistance := camDistance g;
     mouseSensitivity := mouseSensitivity g;
     lastX := lastX g;
     lastY := lastY g;
     firstMouse := firstMouse g;
     deltaTime := deltaTime g |}.

(** The camera block of the main loop: [camPos] and [camTarget], the eye
    and the centre handed to [glm::lookAt]. *)
Definition main_camPos (g : Globals) : vec3 :=
  let yawRad := radians (camYaw g) in
  let pitchRad := radians (camPitch g) in
  let forward := headingForward yawRad in
  let heightOffset := camDistance g * sin pitchRad in
  add (sub (objectPos g) (scale forward (camDistance g)))
      (mkvec3 0 heightOffset 0).

Definition main_camTarget (g : Globals) : vec3 :=
  let targetOffset := mkvec3 0 0.8 0 in
  add (objectPos g) targetOffset.

(** [glm::lookAt] and its result type stay abstract: [view] is
    [glm::lookAt(camera.Position, camTarget, glm::vec3(0, 1, 0))] with
    [camera.Position = camPos]. *)
Variable mat4 : Type.
Variable lookAt : vec3 -> vec3 -> vec3 -> mat4.

Definition main_view (g : Globals) : mat4 :=
  lookAt (main_camPos g) (main_camTarget g) (mkvec3 0 1 0).

End Libm.

(** ** The maze built in [main] and the initial values of the globals *)

Definition mazePlatforms : list Box :=
  [ mkBox (mkvec3 (-20.0) (-0.1) (-20.0)) (mkvec3 20.0 0.0 20.0);
    mkBox (mkvec3 (-12.0) 0.6 6.0) (mkvec3 (-4.0) 1.6 10.0);
    mkBox (mkvec3 6.0 1.1 (-8.0)) (mkvec3 12.0 2.1 (-2.0)) ].

Definition mazeObstacles : list Box :=
  [ mkBox (mkvec3 (-19.5) 0.0 (-19.5)) (mkvec3 (-18.5) 2.5 19.5);
    mkBox (mkvec3 18.5 0.0 (-19.5)) (mkvec3 19.5 2.5 19.5);
    mkBox (mkvec3 (-19.5) 0.0 18.5) (mkvec3 19.5 2.5 19.5);
    mkBox (mkvec3 (-19.5) 0.0 (-19.5)) (mkvec3 19.5 2.5 (-18.5));
    mkBox (mkvec3 (-12.0) 0.0 (-12.0)) (mkvec3 (-11.0) 2.2 6.0);
    mkBox (mkvec3 (-6.0) 0.0 (-6.0)) (mkvec3 6.0 2.0 (-5.0));
    mkBox (mkvec3 5.0 0.0 (-3.0)) (mkvec3 6.0 2.0 13.0);
    mkBox (mkvec3 (-2.0) 0.0 2.0) (mkvec3 10.0 2.0 3.0);
    mkBox (mkvec3 (-10.0) 0.0 7.5) (mkvec3 (-0.5) 2.2 8.5);
    mkBox (mkvec3 (-4.0) 0.0 4.0) (mkvec3 (-3.0) 2.0 14.0);
    mkBox (mkvec3 2.0 0.0 10.0) (mkvec3 4.0 1.6 12.0);
    mkBox (mkvec3 (-8.0) 0.0 (-3.0)) (mkvec3 (-6.5) 1.6 (-1.0)) ].

Definition initialGlobals : Globals :=
  {| platforms := mazePlatforms;
     obstacles := mazeObstacles;
     objectPos := mkvec3 (-17.0) 0.0 (-17.0);
     objectSpeed := 4.0;
     objectRadius := 0.5;
     camYaw := -90.0;
     camPitch := 12.0;
     camDistance := 3.0;
     mouseSensitivity := 0.12;
     lastX := 800 / 2.0;
     lastY := 600 / 2.0;
     firstMouse := true;
     deltaTime := 0.0 |}.

(** ** Specification-side vocabulary *)

(** Componentwise [min <= max]: the data-model invariant of a box. *)
Definition wellFormedBox (b : Box) : Prop :=
  x (min b) <= x (max b) /\ y (min b) <= y (max b) /\ z (min b) <= z (max b).

(** The point [p] lies in the closed box [b]. *)
Definition inBox (p : vec3) (b : Box) : Prop :=
  (x (min b) <= x p <= x (max b))
  /\ (y (min b) <= y p <= y (max b))
  /\ (z (min b) <= z p <= z (max b)).

(** Clamping [v] into [[lo, hi]], as the specification words it. *)
Definition clampInto (v lo hi : float) : float :=
  if fltb v lo then lo else if fltb hi v then hi else v.

Definition closestPointOfBox (c : vec3) (b : Box) : vec3 :=
  mkvec3 (clampInto (x c) (x (min b)) (x (max b)))
         (clampInto (y c) (y (min b)) (y (max b)))
         (clampInto (z c) (z (min b)) (z (max b))).

Definition squaredDistance (p q : vec3) : float :=
  (x p - x q) * (x p - x q) + (y p - y q) * (y p - y q)
  + (z p - z q) * (z p - z q).

(** The rounding [rnd] returns [t] with a relative error of at most
    [eps]. *)
Definition roundsWithin (rnd : float -> float) (eps t : float) : Prop :=
  Qabs (rnd t - t) <= eps * Qabs t.

(** The horizontal span of platform [p] contains [(x, z)], bounds included. *)
Definition spansXZ (p : Box) (x z : float) : Prop :=
  (glm.x (min p) <= x <= glm.x (max p)) /\ (glm.z (min p) <= z <= glm.z (max p)).

(** What the loop knows after the platforms [seen]: [best] bounds the top
    of every platform of [seen] under the point, and either nothing was
    found and [best] is still its starting value, or [best] is the top of a
    platform of [seen] under the point and exceeds the starting value. *)
Definition highestPlatformInv (x z : float) (seen : list Box)
    (acc : bool * float) : Prop :=
  (forall p, In p seen -> spansXZ p x z -> y (max p) <= snd acc)
  /\ (if fst acc
      then -1e9 < snd acc
           /\ exists p, In p seen /\ spansXZ p x z /\ y (max p) = snd acc
      else snd acc = -1e9).

(** Two vectors that denote the same point. *)
Definition vec3_eq (p q : vec3) : Prop :=
  x p == x q /\ y p == y q /\ z p == z q.

(** Inputs used to exercise the theorems: a spot next to the corner
    [(-8, -3)] of the last inner wall, and a diagonal step towards it. *)
Definition cornerPos : vec3 := mkvec3 (-8.45) 0 (-3.45).
Definition cornerDesired : vec3 := mkvec3 (-8.3) 0 (-3.3).

(** The boundary wall spanning [x] in [[-19.5, -18.5]], first of the
    obstacles, and a centre half a unit away from its face. *)
Definition westWall : Box :=
  mkBox (mkvec3 (-19.5) 0.0 (-19.5)) (mkvec3 (-18.5) 2.5 19.5).
Definition tangentCenter : vec3 := mkvec3 (-18.0) 0 0.

(** A platform whose top lies below the starting value of [best]. *)
Definition deepPlatform : Box :=
  mkBox (mkvec3 (-1) (-3e9) (-1)) (mkvec3 1 (-2e9) 1).

(** Two spheres at the limit of the test, on binary32 numbers.  Beside the
    corner [(-8, -3)] of the last inner wall, a centre whose distance to
    the wall is below the radius 0.5 by less than one part in [10^8]; the
    top of the wall is [1.6f], the binary32 number nearest to 1.6.  And a
    sphere that touches the unit cube in one point of an edge. *)
Definition lastWall : Box :=
  mkBox (mkvec3 (-8.0) 0.0 (-3.0)) (mkvec3 (-6.5) (binary32.round 1.6) (-1.0)).
Definition grazingCenter : vec3 :=
  mkvec3 (-2208005 # 262144) 0 (-6850969 # 2097152).
Definition unitBox : Box := mkBox (mkvec3 0 0 0) (mkvec3 1 1 1).
Definition touchingCenter : vec3 := mkvec3 (-1.069091796875) 0.5 (-2.6806640625).
Definition touchingRadius : float := 2.885986328125.

(** The initial globals with the actor moved off every platform. *)
Definition strandedGlobals : Globals :=
  {| platforms := mazePlatforms;
     obstacles := mazeObstacles;
     objectPos := mkvec3 100 5 100;
     objectSpeed := 4.0;
     objectRadius := 0.5;
     camYaw := -90.0;
     camPitch := 12.0;
     camDistance := 3.0;
     mouseSensitivity := 0.12;
     lastX := 800 / 2.0;
     lastY := 600 / 2.0;
     firstMouse := true;
     deltaTime := 0.0 |}.

(** The actor at the corner spot, heading zero, and a frame of 0.0375 s:
    with [W] and [D] pressed the desired step is [(0.15, 0, 0.15)]. *)
Definition cornerGlobals : Globals :=
  {| platforms := mazePlatforms;
     obstacles := mazeObstacles;
     objectPos := cornerPos;
     objectSpeed := 4.0;
     objectRadius := 0.5;
     camYaw := 0;
     camPitch := 12.0;
     camDistance := 3.0;
     mouseSensitivity := 0.12;
     lastX := 800 / 2.0;
     lastY := 600 / 2.0;
     firstMouse := true;
     deltaTime := 0.0375 |}.

Definition keysWD : Window := mkWindow true false false true.

(** The actor on the edge of the third platform, 0.49 away from the wall
    [x] in [[5, 6]] whose top is 0.1 below it, heading zero, and a frame
    of 0.1275 s: with [D] pressed the desired step is [(0, 0, 0.51)], off
    the platform. *)
Definition ledgeGlobals : Globals :=
  {| platforms := mazePlatforms;
     obstacles := mazeObstacles;
     objectPos := mkvec3 6.49 2.1 (-2.5);
     objectSpeed := 4.0;
     objectRadius := 0.5;
     camYaw := 0;
     camPitch := 12.0;
     camDistance := 3.0;
     mouseSensitivity := 0.12;
     lastX := 800 / 2.0;
     lastY := 600 / 2.0;
     firstMouse := true;
     deltaTime := 0.1275 |}.

Definition keysD : Window := mkWindow false false false true.

(** No movement key pressed. *)
Definition noKeys : Window := mkWindow false false false false.

(** The globals once the first pointer sample [(400, 300)] has arrived. *)
Definition trackingGlobals : Globals := mouse_callback initialGlobals 400 300.

(** Stand-ins for the math library that agree with it at heading zero:
    [cos 0 = 1], [sin 0 = 0], [inversesqrt 1 = 1]; [radians] scales by a
    rational approximation of [pi / 180]. *)
Module HeadingZero.
Definition cos (_ : float) : float := 1.
Definition sin (_ : float) : float := 0.
Definition inversesqrt (_ : float) : float := 1.
Definition radians (degrees : float) : float := degrees * (355 / (113 * 180)).
End HeadingZero.

(** The globals after the pointer has moved up by 150 pixels: the yaw is
    still -90 degrees and the pitch is [12 + 150 * 0.12 = 30] degrees. *)
Definition raisedGlobals : Globals := mouse_callback trackingGlobals 400 150.

(** Stand-ins for the math library that agree with it at the angles of
    [raisedGlobals]: [cos (-90 deg) = 0], [sin (-90 deg) = -1],
    [sin (30 deg) = 1/2], [inversesqrt 1 = 1]. *)
Module KnownAngles.
Definition radians (degrees : float) : float := degrees * (355 / (113 * 180)).
Definition cos (a : float) : float :=
  if Qeq_bool a (radians (-90)) then 0 else 1.
Definition sin (a : float) : float :=
  if Qeq_bool a (radians (-90)) then -1
  else if Qeq_bool a (radians 30) then 1 / 2 else 0.
Definition inversesqrt (_ : float) : float := 1.
End KnownAngles.


(** Equality of two optional heights as numbers. *)
Definition height_eq (a b : option float) : Prop :=
  match a, b with
  | Some h, Some h' => h == h'
  | None, None => True
  | _, _ => False
  end.

(** ** The main loop *)

(** What [glfwPollEvents] delivers to the callbacks registered in [main]. *)
Inductive Event : Type :=
| CursorPos (xpos ypos : float)
| Scroll (xoffset yoffset : float)
| FramebufferSize (width height : Z).

(** [framebuffer_size_callback] only calls [glViewport]: no global changes. *)
Definition framebuffer_size_callback (g : Globals) (width height : Z) : Globals := g.

Definition dispatch (g : Globals) (e : Event) : Globals :=
  match e with
  | CursorPos xpos ypos => mouse_callback g xpos ypos
  | Scroll xoffset yoffset => scroll_callback g xoffset yoffset
  | FramebufferSize width height => framebuffer_size_callback g width height
  end.

(** The callbacks run in the order of the events. *)
Definition glfwPollEvents (g : Globals) (events : list Event) : Globals :=
  fold_left dispatch events g.

(** What one pass of the loop reads from outside: the clock, the keys,
    the events of its [glfwPollEvents], and whether the window system
    raised the close flag while polling (the close button). *)
Record FrameInput : Type := mkFrameInput {
  glfwGetTime : float;
  KEY_ESCAPE : bool;
  window : Window;
  events : list Event;
  closeRequested : bool
}.

(** The globals together with [lastFrame] and the close flag of the
    window. *)
Record LoopState : Type := mkLoopState {
  globals : Globals;
  lastFrame : float;
  windowShouldClose : bool
}.

Definition set_deltaTime (g : Globals) (dt : float) : Globals :=
  {| platforms := platforms g;
     obstacles := obstacles g;
     objectPos := objectPos g;
     objectSpeed := objectSpeed g;
     objectRadius := objectRadius g;
     camYaw := camYaw g;
     camPitch := camPitch g;
     camDistance := camDistance g;
     mouseSensitivity := mouseSensitivity g;
     lastX := lastX g;
     lastY := lastY g;
     firstMouse := firstMouse g;
     deltaTime := dt |}.

Section MainLoop.

Variables cos sin : float -> float.
Variable radians : float -> float.
Variable inversesqrt : float -> float.

(** The body of the [while] loop; drawing reads the globals and changes
    none of them.  The escape key is read at the top of [processInput]. *)
Definition main_iteration (s : LoopState) (f : FrameInput) : LoopState :=
  let currentFrame := glfwGetTime f in
  let g := set_deltaTime (globals s) (currentFrame - lastFrame s) in
  let close := if KEY_ESCAPE f then true else windowShouldClose s in
  let g := processInput cos sin radians inversesqrt (window f) g in
  let g := glfwPollEvents g (events f) in
  let close := if closeRequested f then true else close in
  {| globals := g; lastFrame := currentFrame; windowShouldClose := close |}.

(** [while (!glfwWindowShouldClose(window)) { ... }] over the inputs of
    the passes still to come. *)
Fixpoint main_loop (s : LoopState) (frames : list FrameInput) : LoopState :=
  match frames with
  | [] => s
  | f :: rest =>
      if windowShouldClose s then s else main_loop (main_iteration s f) rest
  end.

End MainLoop.

(** The state in which [main] enters the loop. *)
Definition initialLoopState : LoopState :=
  {| globals := initialGlobals; lastFrame := 0.0; windowShouldClose := false |}.

(** Pitch and distance within their clamps. *)
Definition cameraInRange (g : Globals) : Prop :=
  (-89.0 <= camPitch g <= 89.0) /\ (1.2 <= camDistance g <= 10.0).

(** ** Matrices and the drawing of the boxes *)

(** [glm::vec4], [glm::mat4] (four columns [m[0]] to [m[3]]) and the
    transforms of GLM that [main] calls, written out from their GLM
    definitions. *)
Module glm4.

Record vec4 : Type := mkvec4 { x : float; y : float; z : float; w : float }.

Definition add (a b : vec4) : vec4 :=
  mkvec4 (x a + x b) (y a + y b) (z a + z b) (w a + w b).
Definition scale (v : vec4) (s : float) : vec4 :=
  mkvec4 (x v * s) (y v * s) (z v * s) (w v * s).

Record mat4 : Type := mkmat4 { col0 : vec4; col1 : vec4; col2 : vec4; col3 : vec4 }.

(** [glm::mat4(1.0f)]. *)
Definition identity : mat4 :=
  mkmat4 (mkvec4 1 0 0 0) (mkvec4 0 1 0 0) (mkvec4 0 0 1 0) (mkvec4 0 0 0 1).

(** [Result[3] = m[0] * v[0] + m[1] * v[1] + m[2] * v[2] + m[3]]. *)
Definition translate (m : mat4) (v : vec3) : mat4 :=
  mkmat4 (col0 m) (col1 m) (col2 m)
    (add (add (add (scale (col0 m) (glm.x v)) (scale (col1 m) (glm.y v)))
              (scale (col2 m) (glm.z v)))
         (col3 m)).

(** [Result[i] = m[i] * v[i]] for the first three columns. *)
Definition scaleBy (m : mat4) (v : vec3) : mat4 :=
  mkmat4 (scale (col0 m) (glm.x v)) (scale (col1 m) (glm.y v))
         (scale (col2 m) (glm.z v)) (col3 m).

(** The product of a matrix and a column vector, as GLSL computes
    [model * vec4(aPos, 1.0)]. *)
Definition mulVec (m : mat4) (v : vec4) : vec4 :=
  add (add (add (scale (col0 m) (x v)) (scale (col1 m) (y v)))
           (scale (col2 m) (z v)))
      (scale (col3 m) (w v)).

Section Rotate.

Variables cos sin : float -> float.
Variable inversesqrt : float -> float.

(** [glm::rotate(m, angle, v)]. *)
Definition rotate (m : mat4) (angle : float) (v : vec3) : mat4 :=
  let a := angle in
  let c := cos a in
  let s := sin a in
  let axis := glm.normalize inversesqrt v in
  let temp := glm.scale axis (1 - c) in
  let r00 := c + glm.x temp * glm.x axis in
  let r01 := glm.x temp * glm.y axis + s * glm.z axis in
  let r02 := glm.x temp * glm.z axis - s * glm.y axis in
  let r10 := glm.y temp * glm.x axis - s * glm.z axis in
  let r11 := c + glm.y temp * glm.y axis in
  let r12 := glm.y temp * glm.z axis + s * glm.x axis in
  let r20 := glm.z temp * glm.x axis + s * glm.y axis in
  let r21 := glm.z temp * glm.y axis - s * glm.x axis in
  let r22 := c + glm.z temp * glm.z axis in
  mkmat4
    (add (add (scale (col0 m) r00) (scale (col1 m) r01)) (scale (col2 m) r02))
    (add (add (scale (col0 m) r10) (scale (col1 m) r11)) (scale (col2 m) r12))
    (add (add (scale (col0 m) r20) (scale (col1 m) r21)) (scale (col2 m) r22))
    (col3 m).

End Rotate.

End glm4.

(** The positions of [cubeVertices], three floats a vertex. *)
Definition cubeVertices : list vec3 :=
  [ mkvec3 (-0.5) (-0.5) (-0.5); mkvec3 0.5 (-0.5) (-0.5); mkvec3 0.5 0.5 (-0.5);
    mkvec3 0.5 0.5 (-0.5); mkvec3 (-0.5) 0.5 (-0.5); mkvec3 (-0.5) (-0.5) (-0.5);

    mkvec3 (-0.5) (-0.5) 0.5; mkvec3 0.5 (-0.5) 0.5; mkvec3 0.5 0.5 0.5;
    mkvec3 0.5 0.5 0.5; mkvec3 (-0.5) 0.5 0.5; mkvec3 (-0.5) (-0.5) 0.5;

    mkvec3 (-0.5) 0.5 0.5; mkvec3 (-0.5) 0.5 (-0.5); mkvec3 (-0.5) (-0.5) (-0.5);
    mkvec3 (-0.5) (-0.5) (-0.5); mkvec3 (-0.5) (-0.5) 0.5; mkvec3 (-0.5) 0.5 0.5;

    mkvec3 0.5 0.5 0.5; mkvec3 0.5 0.5 (-0.5); mkvec3 0.5 (-0.5) (-0.5);
    mkvec3 0.5 (-0.5) (-0.5); mkvec3 0.5 (-0.5) 0.5; mkvec3 0.5 0.5 0.5;

    mkvec3 (-0.5) (-0.5) (-0.5); mkvec3 0.5 (-0.5) (-0.5); mkvec3 0.5 (-0.5) 0.5;
    mkvec3 0.5 (-0.5) 0.5; mkvec3 (-0.5) (-0.5) 0.5; mkvec3 (-0.5) (-0.5) (-0.5);

    mkvec3 (-0.5) 0.5 (-0.5); mkvec3 0.5 0.5 (-0.5); mkvec3 0.5 0.5 0.5;
    mkvec3 0.5 0.5 0.5; mkvec3 (-0.5) 0.5 0.5; mkvec3 (-0.5) 0.5 (-0.5) ].

(** The model matrix the two drawing loops of [main] build for a box. *)
Definition main_boxModel (b : Box) : glm4.mat4 :=
  let pm := glm4.identity in
  let size := sub (max b) (min b) in
  let center := scale (add (min b) (max b)) 0.5 in
  let pm := glm4.translate pm center in
  let pm := glm4.scaleBy pm size in
  pm.

(** The wall vertex shader: [world = model * vec4(aPos, 1.0)] and
    [TexCoord = fract(world.xz * uvScale)]. *)
Definition wallVs_world (model : glm4.mat4) (aPos : vec3) : glm4.vec4 :=
  glm4.mulVec model (glm4.mkvec4 (x aPos) (y aPos) (z aPos) 1.0).

Definition fract (v : float) : float := v - inject_Z (Qfloor v).

Definition wallVs_TexCoord (model : glm4.mat4) (uvScale : float) (aPos : vec3)
    : float * float :=
  let world := wallVs_world model aPos in
  (fract (glm4.x world * uvScale), fract (glm4.z world * uvScale)).

(** One [glDrawArrays(GL_TRIANGLES, 0, 36)] of the wall program: the
    vertex array bound when it is issued and the uniforms set for it. *)
Record DrawCall : Type := mkDrawCall {
  vertexArray : Z;
  drawModel : glm4.mat4;
  drawTint : vec3;
  drawCount : Z
}.

(** The loop over [platforms]: it binds [cubeVAO] before every draw.
    The result is the calls issued and the vertex array left bound. *)
Fixpoint main_drawPlatforms (cubeVAO bound : Z) (platforms : list Box)
    : list DrawCall * Z :=
  match platforms with
  | [] => ([], bound)
  | p :: rest =>
      let call := mkDrawCall cubeVAO (main_boxModel p) (mkvec3 0.9 0.9 0.9) 36 in
      let '(calls, bound') := main_drawPlatforms cubeVAO cubeVAO rest in
      (call :: calls, bound')
  end.

(** The loop over [obstacles]: it binds no vertex array. *)
Definition main_drawObstacles (bound : Z) (obstacles : list Box) : list DrawCall :=
  map (fun o => mkDrawCall bound (main_boxModel o) (mkvec3 1.0 1.0 1.0) 36)
      obstacles.

(** The two loops one after the other; [bound] is the vertex array that is
    bound when the first loop starts (what drawing the model has left). *)
Definition main_drawBoxes (cubeVAO bound : Z) (g : Globals) : list DrawCall :=
  let '(calls, bound') := main_drawPlatforms cubeVAO bound (platforms g) in
  calls ++ main_drawObstacles bound' (obstacles g).

(** The corner of a box picked by three choices of upper or lower bound. *)
Definition boxCorner (b : Box) (hx hy hz : bool) : vec3 :=
  mkvec3 (if hx then x (max b) else x (min b))
         (if hy then y (max b) else y (min b))
         (if hz then z (max b) else z (min b)).

(** The first three components of a [vec4]. *)
Definition xyz (v : glm4.vec4) : vec3 :=
  mkvec3 (glm4.x v) (glm4.y v) (glm4.z v).

(** The model matrix of the character in the main loop. *)
Definition main_modelMat (cos sin radians inversesqrt : float -> float)
    (g : Globals) : glm4.mat4 :=
  let modelMat := glm4.identity in
  let modelMat := glm4.translate modelMat (objectPos g) in
  let modelMat :=
    glm4.rotate cos sin inversesqrt modelMat (radians (- camYaw g + 90.0))
      (mkvec3 0.0 1.0 0.0) in
  let modelMat := glm4.scaleBy modelMat (mkvec3 1.0 1.0 1.0) in
  modelMat.

(** ** The texture loaders *)

(** The loaders talk to [stb_image] and to OpenGL.  A loader is modelled by
    the calls it makes, in order, and the value it returns.  What the
    outside answers is an argument: [stbi_load] says which paths load and
    with what image, and [tex] is the name [glGenTextures] hands out. *)
Module GL.

Import String.

(** What [stbi_load] writes to [width], [height], [nrComponents]; the
    record also stands for the [data] pointer it returns. *)
Record Image : Type := mkImage { width : Z; height : Z; nrComponents : Z }.

Inductive GLenum : Type :=
| GL_RED | GL_RGB | GL_RGBA
| GL_TEXTURE_2D | GL_TEXTURE_CUBE_MAP
| GL_TEXTURE_CUBE_MAP_POSITIVE_X_plus (i : nat)
| GL_UNSIGNED_BYTE
| GL_TEXTURE_WRAP_S | GL_TEXTURE_WRAP_T | GL_TEXTURE_WRAP_R
| GL_TEXTURE_MIN_FILTER | GL_TEXTURE_MAG_FILTER
| GL_REPEAT | GL_CLAMP_TO_EDGE | GL_LINEAR | GL_LINEAR_MIPMAP_LINEAR.

Inductive Call : Type :=
| stbi_image_free (data : option Image)
| glGenTextures (n : Z) (textures : Z)
| glBindTexture (target : GLenum) (texture : Z)
| glTexImage2D (target : GLenum) (level : Z) (internalformat : GLenum)
    (width height border : Z) (format type : GLenum) (data : Image)
| glGenerateMipmap (target : GLenum)
| glTexParameteri (target pname param : GLenum)
| cerr (text : string)
| cout (text : string).

Definition loadTexture (stbi_load : string -> option Image) (tex : Z)
    (path : string) : list Call * Z :=
  match stbi_load path with
  | None => ([cerr ("Failed to load texture: " ++ path)], 0%Z)
  | Some data =>
      let format := GL_RGB in
      let format :=
        if (nrComponents data =? 1)%Z then GL_RED
        else if (nrComponents data =? 3)%Z then GL_RGB
        else if (nrComponents data =? 4)%Z then GL_RGBA
        else format in
      ([ glGenTextures 1 tex;
         glBindTexture GL_TEXTURE_2D tex;
         glTexImage2D GL_TEXTURE_2D 0 format (width data) (height data) 0
           format GL_UNSIGNED_BYTE data;
         glGenerateMipmap GL_TEXTURE_2D;
         glTexParameteri GL_TEXTURE_2D GL_TEXTURE_WRAP_S GL_REPEAT;
         glTexParameteri GL_TEXTURE_2D GL_TEXTURE_WRAP_T GL_REPEAT;
         glTexParameteri GL_TEXTURE_2D GL_TEXTURE_MIN_FILTER GL_LINEAR_MIPMAP_LINEAR;
         glTexParameteri GL_TEXTURE_2D GL_TEXTURE_MAG_FILTER GL_LINEAR;
         stbi_image_free (Some data) ],
       tex)
  end.

(** The body of the loop of [loadCubemap] for the face of index [i]. *)
Definition loadCubemap_face (stbi_load : string -> option Image) (i : nat)
    (face : string) : list Call :=
  match stbi_load face with
  | Some data =>
      [ glTexImage2D (GL_TEXTURE_CUBE_MAP_POSITIVE_X_plus i) 0 GL_RGB
          (width data) (height data) 0 GL_RGB GL_UNSIGNED_BYTE data;
        stbi_image_free (Some data) ]
  | None =>
      [ cout ("Cubemap texture failed to load at path: " ++ face);
        stbi_image_free None ]
  end.

(** The loop, from index [i] on. *)
Fixpoint loadCubemap_faces (stbi_load : string -> option Image) (i : nat)
    (faces : list string) : list Call :=
  match faces with
  | [] => []
  | face :: rest =>
      (loadCubemap_face stbi_load i face
       ++ loadCubemap_faces stbi_load (S i) rest)%list
  end.

Definition loadCubemap (stbi_load : string -> option Image) (textureID : Z)
    (faces : list string) : list Call * Z :=
  (([ glGenTextures 1 textureID;
      glBindTexture GL_TEXTURE_CUBE_MAP textureID ]
    ++ loadCubemap_faces stbi_load 0 faces
    ++ [ glTexParameteri GL_TEXTURE_CUBE_MAP GL_TEXTURE_MIN_FILTER GL_LINEAR;
         glTexParameteri GL_TEXTURE_CUBE_MAP GL_TEXTURE_MAG_FILTER GL_LINEAR;
         glTexParameteri GL_TEXTURE_CUBE_MAP GL_TEXTURE_WRAP_S GL_CLAMP_TO_EDGE;
         glTexParameteri GL_TEXTURE_CUBE_MAP GL_TEXTURE_WRAP_T GL_CLAMP_TO_EDGE;
         glTexParameteri GL_TEXTURE_CUBE_MAP GL_TEXTURE_WRAP_R GL_CLAMP_TO_EDGE ])%list,
   textureID).

(** Vocabulary for the properties. *)

(** The number of bytes a pixel takes in client memory for a format, with
    [GL_UNSIGNED_BYTE] components. *)
Definition componentsOf (format : GLenum) : option Z :=
  match format with
  | GL_RED => Some 1%Z
  | GL_RGB => Some 3%Z
  | GL_RGBA => Some 4%Z
  | _ => None
  end.

(** The uploads among the calls: target, format and image of every
    [glTexImage2D]. *)
Fixpoint uploads (calls : list Call) : list (GLenum * GLenum * Image) :=
  match calls with
  | [] => []
  | glTexImage2D target _ _ _ _ _ format _ data :: rest =>
      (target, format, data) :: uploads rest
  | _ :: rest => uploads rest
  end.

(** The images handed back to [stbi_image_free], null pointers left out. *)
Fixpoint freed (calls : list Call) : list Image :=
  match calls with
  | [] => []
  | stbi_image_free (Some data) :: rest => data :: freed rest
  | _ :: rest => freed rest
  end.

(** The lines written to [std::cout] and [std::cerr]. *)
Fixpoint messages (calls : list Call) : list string :=
  match calls with
  | [] => []
  | cerr text :: rest => text :: messages rest
  | cout text :: rest => text :: messages rest
  | _ :: rest => messages rest
  end.

(** The faces that load, each with its index in the list, from [i] on. *)
Fixpoint loadedFaces (stbi_load : string -> option Image) (i : nat)
    (faces : list string) : list (nat * Image) :=
  match faces with
  | [] => []
  | face :: rest =>
      match stbi_load face with
      | Some data => (i, data) :: loadedFaces stbi_load (S i) rest
      | None => loadedFaces stbi_load (S i) rest
      end
  end.

(** The faces that do not load. *)
Definition failedFaces (stbi_load : string -> option Image)
    (faces : list string) : list string :=
  filter (fun face => match stbi_load face with None => true | Some _ => false end)
         faces.

End GL.

(** * Proofs *)

(** ** Comparisons *)

Lemma fltb_true_iff (a b : float) : fltb a b = true <-> a < b.
Proof.
  unfold fltb. rewrite negb_true_iff.
  split; intro H.
  - apply Qnot_le_lt. intro L. apply Qle_bool_iff in L. congruence.
  - destruct (Qle_bool b a) eqn:E; [|reflexivity].
    apply Qle_bool_iff in E. exfalso. apply (Qlt_not_le _ _ H E).
Qed.

Lemma fltb_false_iff (a b : float) : fltb a b = false <-> b <= a.
Proof.
  unfold fltb. rewrite negb_false_iff. apply Qle_bool_iff.
Qed.

Lemma fleb_true_iff (a b : float) : fleb a b = true <-> a <= b.
Proof. apply Qle_bool_iff. Qed.

Lemma fltb_spec (a b : float) : reflect (a < b) (fltb a b).
Proof.
  destruct (fltb a b) eqn:E; constructor.
  - now apply fltb_true_iff.
  - apply fltb_false_iff in E. now apply Qle_not_lt.
Qed.

#[export] Instance fltb_compat : Proper (Qeq ==> Qeq ==> eq) fltb.
Proof.
  intros a a' Ha b b' Hb. unfold fltb. now rewrite Ha, Hb.
Qed.

#[export] Instance std_max_compat : Proper (Qeq ==> Qeq ==> Qeq) std.max.
Proof.
  intros a a' Ha b b' Hb. unfold std.max. rewrite <- Ha, <- Hb.
  destruct (fltb a b); assumption.
Qed.

#[export] Instance std_min_compat : Proper (Qeq ==> Qeq ==> Qeq) std.min.
Proof.
  intros a a' Ha b b' Hb. unfold std.min. rewrite <- Ha, <- Hb.
  destruct (fltb b a); assumption.
Qed.

Lemma square_nonneg (a : float) : 0 <= a * a.
Proof.
  destruct (Qlt_le_dec a 0) as [N|P].
  - assert (0 <= (0 - a) * (0 - a)) by (apply Qmult_le_0_compat; lra). lra.
  - apply Qmult_le_0_compat; assumption.
Qed.

(** [std::max(lo, std::min(v, hi))] is the clamp of [v] into [[lo, hi]]
    whenever [lo <= hi]. *)
Lemma max_min_is_clamp (v lo hi : float) :
  lo <= hi -> std.max lo (std.min v hi) == clampInto v lo hi.
Proof.
  intro H. unfold std.max, std.min, clampInto.
  destruct (fltb_spec hi v) as [A|A];
    destruct (fltb_spec v lo) as [B|B];
    destruct (fltb_spec lo hi) as [C|C];
    try destruct (fltb_spec lo v) as [D|D]; lra.
Qed.

Lemma clampInto_bounds (v lo hi : float) :
  lo <= hi -> lo <= clampInto v lo hi <= hi.
Proof.
  intro H. unfold clampInto.
  destruct (fltb_spec v lo); [lra|].
  destruct (fltb_spec hi v); lra.
Qed.

(** The clamped coordinate is at least as near to [v] as any [p] of
    [[lo, hi]]. *)
Lemma clampInto_nearest (v lo hi p : float) :
  lo <= p <= hi ->
  (clampInto v lo hi - v) * (clampInto v lo hi - v) <= (p - v) * (p - v).
Proof.
  intros [H1 H2]. unfold clampInto.
  destruct (fltb_spec v lo) as [A|A].
  - assert (0 <= (p - lo) * (lo - v)) by (apply Qmult_le_0_compat; lra).
    nra.
  - destruct (fltb_spec hi v) as [B|B].
    + assert (0 <= (hi - p) * (v - hi)) by (apply Qmult_le_0_compat; lra).
      nra.
    + assert (E : (v - v) * (v - v) == 0) by ring.
      rewrite E. apply square_nonneg.
Qed.

(** ** Sphere against box *)

Lemma closestPointOfBox_inBox (c : vec3) (b : Box) :
  wellFormedBox b -> inBox (closestPointOfBox c b) b.
Proof.
  intros (Hx & Hy & Hz). unfold inBox, closestPointOfBox; cbn [x y z].
  repeat split; now apply clampInto_bounds.
Qed.

Lemma closestPointOfBox_nearest (c p : vec3) (b : Box) :
  inBox p b ->
  squaredDistance c (closestPointOfBox c b) <= squaredDistance c p.
Proof.
  intros (Hx & Hy & Hz). unfold squaredDistance, closestPointOfBox; cbn [x y z].
  pose proof (clampInto_nearest (x c) _ _ _ Hx) as Nx.
  pose proof (clampInto_nearest (y c) _ _ _ Hy) as Ny.
  pose proof (clampInto_nearest (z c) _ _ _ Hz) as Nz.
  lra.
Qed.

(** The test of the program, read through the specification's words. *)
Lemma sphereIntersectsAABB_as_distance (c : vec3) (r : float) (b : Box) :
  wellFormedBox b ->
  sphereIntersectsAABB c r b
  = fltb (squaredDistance c (closestPointOfBox c b)) (r * r).
Proof.
  intros (Hx & Hy & Hz). unfold sphereIntersectsAABB; cbv zeta.
  apply fltb_compat; [|reflexivity].
  unfold squaredDistance, closestPointOfBox; cbn [x y z].
  rewrite (max_min_is_clamp (x c) _ _ Hx), (max_min_is_clamp (y c) _ _ Hy),
    (max_min_is_clamp (z c) _ _ Hz).
  ring.
Qed.

(** *** Rounding *)

Lemma Qmult_le_scale (k u v : Q) : 0 <= k -> u <= v -> k * u <= k * v.
Proof.
  intros Hk H.
  assert (0 <= k * (v - u)) by (apply Qmult_le_0_compat; lra). lra.
Qed.

(** A rounding of relative error at most [eps] keeps a non-negative number
    between [(1 - eps)] and [(1 + eps)] times itself. *)
Lemma roundsWithin_nonneg (rnd : float -> float) (eps t : float) :
  roundsWithin rnd eps t -> 0 <= t ->
  (1 - eps) * t <= rnd t <= (1 + eps) * t.
Proof.
  unfold roundsWithin. intros H Ht.
  rewrite (Qabs_pos t Ht) in H. apply Qabs_Qle_condition in H.
  destruct H; split; lra.
Qed.

(** The square of a rounded number, whatever its sign. *)
Lemma roundsWithin_square (rnd : float -> float) (eps t : float) :
  0 <= eps <= 1 -> roundsWithin rnd eps t ->
  (1 - eps) * (1 - eps) * (t * t) <= rnd t * rnd t
  /\ rnd t * rnd t <= (1 + eps) * (1 + eps) * (t * t).
Proof.
  unfold roundsWithin. intros [He0 He1] H.
  destruct (Qlt_le_dec t 0) as [N|P].
  - rewrite (Qabs_neg t) in H by lra. apply Qabs_Qle_condition in H.
    destruct H as [L U].
    assert (Et : 0 <= eps * (0 - t)) by (apply Qmult_le_0_compat; lra).
    assert (Et' : 0 <= (1 - eps) * (0 - t)) by (apply Qmult_le_0_compat; lra).
    split.
    + assert (0 <= ((1 - eps) * t - rnd t) * (0 - (1 - eps) * t - rnd t))
        by (apply Qmult_le_0_compat; lra).
      lra.
    + assert (0 <= (rnd t - (1 + eps) * t) * (0 - (1 + eps) * t - rnd t))
        by (apply Qmult_le_0_compat; lra).
      lra.
  - rewrite (Qabs_pos t P) in H. apply Qabs_Qle_condition in H.
    destruct H as [L U].
    assert (Et : 0 <= eps * t) by (apply Qmult_le_0_compat; lra).
    assert (Et' : 0 <= (1 - eps) * t) by (apply Qmult_le_0_compat; lra).
    split.
    + assert (0 <= (rnd t - (1 - eps) * t) * (rnd t + (1 - eps) * t))
        by (apply Qmult_le_0_compat; lra).
      lra.
    + assert (0 <= ((1 + eps) * t - rnd t) * ((1 + eps) * t + rnd t))
        by (apply Qmult_le_0_compat; lra).
      lra.
Qed.

(** The rounded test is the test when [rnd] is the identity, and when the
    nine roundings happen to be exact. *)
Lemma Rounded_identity (c : vec3) (r : float) (b : Box) :
  Rounded.sphereIntersectsAABB (fun t => t) c r b = sphereIntersectsAABB c r b.
Proof. reflexivity. Qed.

Lemma Rounded_exact (rnd : float -> float) (c : vec3) (r : float) (b : Box) :
  Forall (fun t => rnd t == t) (Rounded.roundings rnd c r b) ->
  Rounded.sphereIntersectsAABB rnd c r b = sphereIntersectsAABB c r b.
Proof.
  unfold Rounded.roundings, Rounded.sphereIntersectsAABB, sphereIntersectsAABB;
    cbv zeta.
  intro H.
  apply Forall_cons_iff in H as [Ex H]. apply Forall_cons_iff in H as [Ey H].
  apply Forall_cons_iff in H as [Ez H]. apply Forall_cons_iff in H as [Exx H].
  apply Forall_cons_iff in H as [Eyy H]. apply Forall_cons_iff in H as [Ezz H].
  apply Forall_cons_iff in H as [Es H]. apply Forall_cons_iff in H as [Ed H].
  apply Forall_cons_iff in H as [Er _].
  apply fltb_compat; [|exact Er].
  rewrite Ed, Es, Exx, Eyy, Ezz, Ex, Ey, Ez. reflexivity.
Qed.

(** The exact squared distance to the clamped point, on the differences
    the program forms. *)
Lemma squaredDistance_closestPointOfBox (c : vec3) (b : Box) :
  wellFormedBox b ->
  squaredDistance c (closestPointOfBox c b)
  == (std.max (x (min b)) (std.min (x c) (x (max b))) - x c)
     * (std.max (x (min b)) (std.min (x c) (x (max b))) - x c)
     + (std.max (y (min b)) (std.min (y c) (y (max b))) - y c)
       * (std.max (y (min b)) (std.min (y c) (y (max b))) - y c)
     + (std.max (z (min b)) (std.min (z c) (z (max b))) - z c)
       * (std.max (z (min b)) (std.min (z c) (z (max b))) - z c).
Proof.
  intros (Hx & Hy & Hz). unfold squaredDistance, closestPointOfBox; cbn [x y z].
  rewrite (max_min_is_clamp (x c) _ _ Hx), (max_min_is_clamp (y c) _ _ Hy),
    (max_min_is_clamp (z c) _ _ Hz).
  ring.
Qed.

(** The rounded sum of three rounded squares of rounded differences, against
    the exact sum of squares: five roundings lie on the longest path. *)
Lemma rounded_distSq_bounds (rnd : float -> float) (eps dx dy dz : float) :
  0 <= eps <= 1 ->
  Forall (roundsWithin rnd eps)
    [ dx; dy; dz;
      rnd dx * rnd dx; rnd dy * rnd dy; rnd dz * rnd dz;
      rnd (rnd dx * rnd dx) + rnd (rnd dy * rnd dy);
      rnd (rnd (rnd dx * rnd dx) + rnd (rnd dy * rnd dy))
      + rnd (rnd dz * rnd dz) ] ->
  (1 - eps) ^ 5 * (dx * dx + dy * dy + dz * dz)
  <= rnd (rnd (rnd (rnd dx * rnd dx) + rnd (rnd dy * rnd dy))
          + rnd (rnd dz * rnd dz))
  /\ rnd (rnd (rnd (rnd dx * rnd dx) + rnd (rnd dy * rnd dy))
          + rnd (rnd dz * rnd dz))
     <= (1 + eps) ^ 5 * (dx * dx + dy * dy + dz * dz).
Proof.
  intros Heps H.
  apply Forall_cons_iff in H as [Hx H]. apply Forall_cons_iff in H as [Hy H].
  apply Forall_cons_iff in H as [Hz H]. apply Forall_cons_iff in H as [Hxx H].
  apply Forall_cons_iff in H as [Hyy H]. apply Forall_cons_iff in H as [Hzz H].
  apply Forall_cons_iff in H as [Hs H]. apply Forall_cons_iff in H as [Hd _].
  destruct (roundsWithin_square rnd eps dx Heps Hx) as [Lx Ux].
  destruct (roundsWithin_square rnd eps dy Heps Hy) as [Ly Uy].
  destruct (roundsWithin_square rnd eps dz Heps Hz) as [Lz Uz].
  pose proof (square_nonneg dx) as Nx. pose proof (square_nonneg dy) as Ny.
  pose proof (square_nonneg dz) as Nz.
  set (qx := dx * dx) in *. set (qy := dy * dy) in *. set (qz := dz * dz) in *.
  pose proof (square_nonneg (rnd dx)) as Nux.
  pose proof (square_nonneg (rnd dy)) as Nuy.
  pose proof (square_nonneg (rnd dz)) as Nuz.
  set (ux := rnd dx * rnd dx) in *. set (uy := rnd dy * rnd dy) in *.
  set (uz := rnd dz * rnd dz) in *.
  destruct (roundsWithin_nonneg rnd eps ux Hxx Nux) as [LPx UPx].
  destruct (roundsWithin_nonneg rnd eps uy Hyy Nuy) as [LPy UPy].
  destruct (roundsWithin_nonneg rnd eps uz Hzz Nuz) as [LPz UPz].
  set (px := rnd ux) in *. set (py := rnd uy) in *. set (pz := rnd uz) in *.
  assert (Ea : (1 - eps) ^ 5
               == (1 - eps) * ((1 - eps) * ((1 - eps) * ((1 - eps) * (1 - eps)))))
    by ring.
  assert (Eb : (1 + eps) ^ 5
               == (1 + eps) * ((1 + eps) * ((1 + eps) * ((1 + eps) * (1 + eps)))))
    by ring.
  rewrite Ea, Eb. clear Ea Eb.
  assert (Ha : 0 <= 1 - eps <= 1) by lra.
  assert (Hb : 1 <= 1 + eps) by lra.
  set (a := 1 - eps) in *. set (b := 1 + eps) in *.
  clearbody qx qy qz ux uy uz px py pz.
  destruct Ha as [Ha0 Ha1].
  assert (Hb0 : 0 <= b) by lra.
  (* the three rounded squares *)
  pose proof (Qmult_le_scale a _ _ Ha0 Lx) as Ax.
  pose proof (Qmult_le_scale a _ _ Ha0 Ly) as Ay.
  pose proof (Qmult_le_scale a _ _ Ha0 Lz) as Az.
  pose proof (Qmult_le_scale b _ _ Hb0 Ux) as Bx.
  pose proof (Qmult_le_scale b _ _ Hb0 Uy) as By.
  pose proof (Qmult_le_scale b _ _ Hb0 Uz) as Bz.
  assert (Pa : 0 <= a * ux /\ 0 <= a * uy /\ 0 <= a * uz)
    by (repeat split; apply Qmult_le_0_compat; assumption).
  destruct Pa as (Pax & Pay & Paz).
  (* the first sum *)
  assert (Ns : 0 <= px + py) by lra.
  destruct (roundsWithin_nonneg rnd eps (px + py) Hs Ns) as [LS US].
  fold a in LS. fold b in US.
  set (s := rnd (px + py)) in *. clearbody s.
  assert (LS' : a * (a * (a * (a * (qx + qy)))) <= s).
  { assert (a * (a * (a * (a * qx))) <= a * px)
      by (apply Qmult_le_scale; [assumption|lra]).
    assert (a * (a * (a * (a * qy))) <= a * py)
      by (apply Qmult_le_scale; [assumption|lra]).
    lra. }
  assert (US' : s <= b * (b * (b * (b * (qx + qy))))).
  { assert (b * px <= b * (b * (b * (b * qx))))
      by (apply Qmult_le_scale; [assumption|lra]).
    assert (b * py <= b * (b * (b * (b * qy))))
      by (apply Qmult_le_scale; [assumption|lra]).
    lra. }
  (* the second sum *)
  assert (Q4 : 0 <= a * (a * (a * (a * (qx + qy))))).
  { repeat (apply Qmult_le_0_compat; [assumption|]). lra. }
  assert (Nd : 0 <= s + pz) by lra.
  destruct (roundsWithin_nonneg rnd eps (s + pz) Hd Nd) as [LD UD].
  fold a in LD. fold b in UD.
  set (d := rnd (s + pz)) in *. clearbody d.
  assert (Qz3 : 0 <= a * (a * (a * qz))).
  { repeat (apply Qmult_le_0_compat; [assumption|]). assumption. }
  assert (Rz3 : 0 <= b * (b * (b * qz))).
  { repeat (apply Qmult_le_0_compat; [assumption|]). assumption. }
  split.
  - assert (a * (a * (a * (a * (a * (qx + qy))))) <= a * s)
      by (apply Qmult_le_scale; assumption).
    assert (a * (a * (a * (a * qz))) <= a * pz)
      by (apply Qmult_le_scale; [assumption|lra]).
    assert (a * (a * (a * (a * (a * qz)))) <= a * (a * (a * (a * qz)))).
    { assert (0 <= (1 - a) * (a * (a * (a * (a * qz)))))
        by (apply Qmult_le_0_compat; [lra|];
            apply Qmult_le_0_compat; assumption).
      lra. }
    lra.
  - assert (b * s <= b * (b * (b * (b * (b * (qx + qy))))))
      by (apply Qmult_le_scale; assumption).
    assert (b * pz <= b * (b * (b * (b * qz))))
      by (apply Qmult_le_scale; [assumption|lra]).
    assert (b * (b * (b * (b * qz))) <= b * (b * (b * (b * (b * qz))))).
    { assert (0 <= (b - 1) * (b * (b * (b * (b * qz)))))
        by (apply Qmult_le_0_compat; [lra|];
            apply Qmult_le_0_compat; assumption).
      lra. }
    lra.
Qed.

(** The answer of the rounded test against the exact squared distance,
    for any rounding whose nine results have a relative error of at most
    [eps]. *)
Lemma Rounded_sphereIntersectsAABB_bounds
    (rnd : float -> float) (eps : float)
    (center : vec3) (radius : float) (b : Box) :
  wellFormedBox b -> 0 <= eps <= 1 ->
  Forall (roundsWithin rnd eps) (Rounded.roundings rnd center radius b) ->
  (Rounded.sphereIntersectsAABB rnd center radius b = true ->
   (1 - eps) ^ 5 * squaredDistance center (closestPointOfBox center b)
   < (1 + eps) * (radius * radius))
  /\ (Rounded.sphereIntersectsAABB rnd center radius b = false ->
      (1 - eps) * (radius * radius)
      <= (1 + eps) ^ 5 * squaredDistance center (closestPointOfBox center b)).
Proof.
  intros Hwf Heps Hrnd.
  rewrite (squaredDistance_closestPointOfBox _ _ Hwf).
  unfold Rounded.roundings in Hrnd. unfold Rounded.sphereIntersectsAABB.
  cbv zeta in *.
  set (dx := std.max (x (min b)) (std.min (x center) (x (max b))) - x center) in *.
  set (dy := std.max (y (min b)) (std.min (y center) (y (max b))) - y center) in *.
  set (dz := std.max (z (min b)) (std.min (z center) (z (max b))) - z center) in *.
  assert (Hr : roundsWithin rnd eps (radius * radius)).
  { rewrite Forall_forall in Hrnd. apply Hrnd. do 8 right. left. reflexivity. }
  assert (Hd : Forall (roundsWithin rnd eps)
            [ dx; dy; dz;
              rnd dx * rnd dx; rnd dy * rnd dy; rnd dz * rnd dz;
              rnd (rnd dx * rnd dx) + rnd (rnd dy * rnd dy);
              rnd (rnd (rnd dx * rnd dx) + rnd (rnd dy * rnd dy))
              + rnd (rnd dz * rnd dz) ]).
  { rewrite Forall_forall in *. intros t Ht. apply Hrnd.
    cbn [In] in *. tauto. }
  destruct (rounded_distSq_bounds rnd eps dx dy dz Heps Hd) as [LD UD].
  destruct (roundsWithin_nonneg rnd eps _ Hr (square_nonneg radius)) as [LR UR].
  set (d := rnd (rnd (rnd (rnd dx * rnd dx) + rnd (rnd dy * rnd dy))
                 + rnd (rnd dz * rnd dz))) in *.
  split.
  - intro T. apply fltb_true_iff in T. lra.
  - intro F. apply fltb_false_iff in F. lra.
Qed.

(** *** The rounding of the program *)

Lemma nearest_even_half (s : Q) :
  Qabs (inject_Z (binary32.nearest_even s) - s) <= 1 # 2.
Proof.
  unfold binary32.nearest_even.
  pose proof (Qfloor_le s) as L. pose proof (Qlt_floor s) as U.
  rewrite inject_Z_plus in U. change (inject_Z 1) with 1 in U.
  apply Qabs_Qle_condition.
  destruct (Qcompare_spec (s - inject_Z (Qfloor s)) (1 # 2)) as [E|E|E].
  - destruct (Z.even (Qfloor s)); rewrite ?inject_Z_plus;
      change (inject_Z 1) with 1; split; lra.
  - split; lra.
  - rewrite inject_Z_plus. change (inject_Z 1) with 1. split; lra.
Qed.

Lemma two_power_pos (k : Z) : 0 < 2 ^ k.
Proof. apply Qpower_0_lt. reflexivity. Qed.

Lemma ilog2_le (a : Q) : 0 < a -> 2 ^ binary32.ilog2 a <= a.
Proof.
  intro Ha. unfold binary32.ilog2.
  destruct (Qle_bool (2 ^ (Z.log2 (Qnum a) - Z.log2 (Z.pos (Qden a)))) a) eqn:E.
  - now apply Qle_bool_iff.
  - clear E. destruct a as [n d]. cbn [Qnum Qden].
    assert (Hn : (0 < n)%Z).
    { unfold Qlt in Ha. cbn in Ha. lia. }
    destruct (Z.log2_spec n Hn) as [Ln _].
    destruct (Z.log2_spec (Zpos d) (Pos2Z.is_pos d)) as [_ Ud].
    set (ln := Z.log2 n) in *. set (ld := Z.log2 (Zpos d)) in *.
    assert (Hln : (0 <= ln)%Z) by apply Z.log2_nonneg.
    assert (Hld : (0 <= ld)%Z) by apply Z.log2_nonneg.
    rewrite (Qmake_Qdiv n d).
    apply Qle_shift_div_l; [reflexivity|].
    assert (Qn : 2 ^ ln <= inject_Z n).
    { rewrite <- (Zpower_Qpower 2 ln Hln). now rewrite <- Zle_Qle. }
    assert (Qd : inject_Z (Zpos d) <= 2 ^ (ld + 1)).
    { change (ld + 1)%Z with (Z.succ ld) in *.
      rewrite <- (Zpower_Qpower 2 (Z.succ ld)) by lia.
      rewrite <- Zle_Qle. lia. }
    assert (P : 2 ^ (ln - ld - 1) * 2 ^ (ld + 1) == 2 ^ ln).
    { rewrite <- Qpower_plus by discriminate.
      now replace (ln - ld - 1 + (ld + 1))%Z with ln by lia. }
    pose proof (two_power_pos (ln - ld - 1)) as Pk.
    pose proof (Qmult_le_scale _ _ _ (Qlt_le_weak _ _ Pk) Qd).
    lra.
Qed.

(** Away from underflow, [binary32.round] has a relative error of at most
    [2^-24]: the result is within half a unit of the last of 24 bits. *)
Lemma binary32_round_within (q : Q) :
  q == 0 \/ 2 ^ (-126) <= Qabs q ->
  roundsWithin binary32.round binary32.eps q.
Proof.
  unfold roundsWithin, binary32.round.
  destruct (Qeq_bool q 0) eqn:Z0.
  - intros _. apply Qeq_bool_iff in Z0. rewrite Z0. vm_compute. discriminate.
  - intros [H|H]; [apply Qeq_bool_neq in Z0; contradiction|].
    cbv zeta. rewrite Qred_correct.
    assert (Ha : 0 < Qabs q).
    { pose proof (two_power_pos (-126)). lra. }
    set (e := Z.max (binary32.ilog2 (Qabs q) - 23) (-149)).
    pose proof (two_power_pos e) as Pe.
    pose proof (nearest_even_half (q / 2 ^ e)) as N.
    set (m := inject_Z (binary32.nearest_even (q / 2 ^ e))) in *.
    assert (Eq' : m * 2 ^ e - q == (m - q / 2 ^ e) * 2 ^ e).
    { field. lra. }
    rewrite Eq', Qabs_Qmult, (Qabs_pos (2 ^ e)) by lra.
    assert (B : Qabs (m - q / 2 ^ e) * 2 ^ e <= (1 # 2) * 2 ^ e).
    { assert (0 <= 2 ^ e * ((1 # 2) - Qabs (m - q / 2 ^ e)))
        by (apply Qmult_le_0_compat; lra).
      lra. }
    assert (C : (1 # 2) * 2 ^ e <= binary32.eps * Qabs q).
    { unfold e.
      destruct (Z.max_spec (binary32.ilog2 (Qabs q) - 23) (-149))
        as [[_ ->]|[_ ->]].
      - assert (E1 : (1 # 2) * 2 ^ (-149) == binary32.eps * 2 ^ (-126))
          by (vm_compute; reflexivity).
        rewrite E1. unfold binary32.eps. lra.
      - pose proof (ilog2_le (Qabs q) Ha) as L.
        assert (E1 : (1 # 2) * 2 ^ (binary32.ilog2 (Qabs q) - 23)
                     == binary32.eps * 2 ^ binary32.ilog2 (Qabs q)).
        { unfold Z.sub. rewrite Qpower_plus by discriminate.
          assert (E2 : 2 ^ (-23) == 1 # 8388608) by (vm_compute; reflexivity).
          rewrite E2. unfold binary32.eps. field. }
        rewrite E1. unfold binary32.eps. lra. }
    lra.
Qed.

(** C2, as the program has it.  For a box with [min <= max] the clamped
    point is a point of the box and no point of the box is nearer to the
    centre: the clamp compares and does not round.  The test compares the
    squared distance and [radius * radius] as binary32 arithmetic delivers
    them.  When none of its nine operations underflows or overflows, the
    answer [true] implies [(1 - eps)^5 * d2 < (1 + eps) * radius^2] and the
    answer [false] implies [(1 - eps) * radius^2 <= (1 + eps)^5 * d2], where
    [eps = 2^-24] and [d2] is the exact squared distance from the centre to
    the clamped point.  When the nine exact results are binary32 numbers,
    so that nothing is rounded, the test answers [true] exactly when
    [d2 < radius^2], and a tangent sphere is no collision. *)
Theorem sphereIntersectsAABB_up_to_rounding
    (center : vec3) (radius : float) (b : Box)
    (Hwf : wellFormedBox b)
    (Hnormal : Forall binary32.normal
                 (Rounded.roundings binary32.round center radius b)) :
  inBox (closestPointOfBox center b) b
  /\ (forall p, inBox p b ->
        squaredDistance center (closestPointOfBox center b)
        <= squaredDistance center p)
  /\ (Rounded.sphereIntersectsAABB binary32.round center radius b = true ->
      (1 - binary32.eps) ^ 5
      * squaredDistance center (closestPointOfBox center b)
      < (1 + binary32.eps) * (radius * radius))
  /\ (Rounded.sphereIntersectsAABB binary32.round center radius b = false ->
      (1 - binary32.eps) * (radius * radius)
      <= (1 + binary32.eps) ^ 5
         * squaredDistance center (closestPointOfBox center b))
  /\ (Forall (fun t => binary32.round t == t)
        (Rounded.roundings binary32.round center radius b) ->
      Rounded.sphereIntersectsAABB binary32.round center radius b
      = sphereIntersectsAABB center radius b
      /\ (Rounded.sphereIntersectsAABB binary32.round center radius b = true
          <-> squaredDistance center (closestPointOfBox center b)
              < radius * radius)
      /\ (squaredDistance center (closestPointOfBox center b)
          == radius * radius ->
          Rounded.sphereIntersectsAABB binary32.round center radius b = false)).
Proof.
  split; [now apply closestPointOfBox_inBox|].
  split; [intros p Hp; now apply closestPointOfBox_nearest|].
  assert (Hrnd : Forall (roundsWithin binary32.round binary32.eps)
                   (Rounded.roundings binary32.round center radius b)).
  { apply (Forall_impl _ (P := binary32.normal)); [|exact Hnormal].
    intros t [Z0|[L _]]; apply binary32_round_within; [now left|now right]. }
  assert (Heps : 0 <= binary32.eps <= 1) by (unfold binary32.eps; lra).
  destruct (Rounded_sphereIntersectsAABB_bounds binary32.round binary32.eps
              center radius b Hwf Heps Hrnd) as [T F].
  split; [exact T|]. split; [exact F|].
  intro Hexact. rewrite (Rounded_exact _ _ _ _ Hexact).
  split; [reflexivity|].
  rewrite (sphereIntersectsAABB_as_distance _ _ _ Hwf).
  split; [apply fltb_true_iff|].
  intro E. apply fltb_false_iff. rewrite E. apply Qle_refl.
Qed.

(** At the grazing centre no operation underflows or overflows and the
    answer is [false]: the squared distance is not below [0.25] by more
    than the stated factor. *)
Lemma sphereIntersectsAABB_up_to_rounding_witness :
  (1 - binary32.eps) * (0.5 * 0.5)
  <= (1 + binary32.eps) ^ 5
     * squaredDistance grazingCenter (closestPointOfBox grazingCenter lastWall).
Proof.
  refine (proj1 (proj2 (proj2 (proj2
            (sphereIntersectsAABB_up_to_rounding grazingCenter 0.5 lastWall
               _ _)))) _).
  - unfold wellFormedBox; repeat split; vm_compute; discriminate.
  - unfold Rounded.roundings, binary32.normal; cbv zeta.
    repeat (apply Forall_cons;
            [first [ left; vm_compute; reflexivity
                   | right; split; vm_compute; discriminate ]|]).
    apply Forall_nil.
  - vm_compute. reflexivity.
Defined.

(** On binary32 numbers the answer is not the exact comparison.  The
    grazing sphere overlaps the last wall (its squared distance is below
    [0.25]) and the test answers [false]; the touching sphere is tangent to
    the unit cube (its squared distance equals the squared radius) and the
    test answers [true]. *)
Lemma sphereIntersectsAABB_rounding_decides_at_the_limit :
  Forall (fun v => binary32.round v == v)
    [ x grazingCenter; y grazingCenter; z grazingCenter; 0.5;
      x (min lastWall); y (min lastWall); z (min lastWall);
      x (max lastWall); y (max lastWall); z (max lastWall);
      x touchingCenter; y touchingCenter; z touchingCenter; touchingRadius;
      0; 1 ]
  /\ (wellFormedBox lastWall
      /\ squaredDistance grazingCenter (closestPointOfBox grazingCenter lastWall)
         < 0.5 * 0.5
      /\ Rounded.sphereIntersectsAABB binary32.round grazingCenter 0.5 lastWall
         = false)
  /\ (wellFormedBox unitBox
      /\ squaredDistance touchingCenter (closestPointOfBox touchingCenter unitBox)
         == touchingRadius * touchingRadius
      /\ Rounded.sphereIntersectsAABB binary32.round touchingCenter
           touchingRadius unitBox
         = true).
Proof.
  split; [|split].
  - repeat (apply Forall_cons; [vm_compute; reflexivity|]). apply Forall_nil.
  - split; [unfold wellFormedBox; repeat split; vm_compute; discriminate|].
    split; vm_compute; reflexivity.
  - split; [unfold wellFormedBox; repeat split; vm_compute; discriminate|].
    split; vm_compute; reflexivity.
Qed.

(** [binary32.round] against the IEEE 754 operations of the standard
    library: the same numbers for the conversion of decimal literals and
    for products, sums and differences of binary32 numbers, and the same
    answers of the sphere test at the two spheres above. *)
Example binary32_round_agrees_with_IEEE754 :
  Forall (fun ab : Q * Q =>
            IEEE754.value (IEEE754.of_Q (fst ab)) == binary32.round (fst ab)
            /\ IEEE754.value
                 (IEEE754.mul (IEEE754.of_Q (fst ab)) (IEEE754.of_Q (snd ab)))
               == binary32.round
                    (binary32.round (fst ab) * binary32.round (snd ab))
            /\ IEEE754.value
                 (IEEE754.add (IEEE754.of_Q (fst ab)) (IEEE754.of_Q (snd ab)))
               == binary32.round
                    (binary32.round (fst ab) + binary32.round (snd ab))
            /\ IEEE754.value
                 (IEEE754.sub (IEEE754.of_Q (fst ab)) (IEEE754.of_Q (snd ab)))
               == binary32.round
                    (binary32.round (fst ab) - binary32.round (snd ab)))
    [ (1.6, 0.1); (0.4, 3.0); (0.12, -8.45); (-0.3, 0.3); (1 # 3, 2.2);
      (110853 # 262144, 110853 # 262144);
      (559513 # 2097152, 559513 # 2097152);
      (16777215, 1 # 2); (1 # 16777216, 1 # 16777216);
      (3 * 2 ^ (-75), 2 ^ (-75)); (3 * 2 ^ (-127), 2 ^ (-24)) ]
  /\ IEEE754.sphereIntersectsAABB grazingCenter 0.5 lastWall
     = Rounded.sphereIntersectsAABB binary32.round grazingCenter 0.5 lastWall
  /\ IEEE754.sphereIntersectsAABB touchingCenter touchingRadius unitBox
     = Rounded.sphereIntersectsAABB binary32.round touchingCenter
         touchingRadius unitBox.
Proof.
  split; [|split; vm_compute; reflexivity].
  repeat (apply Forall_cons; [vm_compute; repeat split; reflexivity|]).
  apply Forall_nil.
Qed.

(** ** The obstacle scan *)

Lemma collidesWithAnyObstacle_existsb (obstacles : list Box) (c : vec3) (r : float) :
  collidesWithAnyObstacle obstacles c r
  = existsb (sphereIntersectsAABB c r) obstacles.
Proof.
  induction obstacles as [|b rest IH]; cbn; [reflexivity|].
  rewrite IH. now destruct (sphereIntersectsAABB c r b).
Qed.

Lemma collidesWithAnyObstacle_true_iff (obstacles : list Box) (c : vec3) (r : float) :
  collidesWithAnyObstacle obstacles c r = true
  <-> exists b, In b obstacles /\ sphereIntersectsAABB c r b = true.
Proof.
  rewrite collidesWithAnyObstacle_existsb. apply existsb_exists.
Qed.

Lemma collidesWithAnyObstacle_Permutation (l l' : list Box) (c : vec3) (r : float) :
  Permutation l l' ->
  collidesWithAnyObstacle l' c r = collidesWithAnyObstacle l c r.
Proof.
  intro P. induction P as [|b l l' _ IH|a b l|l l' l'' _ IH1 _ IH2]; cbn.
  - reflexivity.
  - now rewrite IH.
  - destruct (sphereIntersectsAABB c r a), (sphereIntersectsAABB c r b);
      reflexivity.
  - congruence.
Qed.

(** ** The slide, branch by branch *)

Lemma set_z_set_x_is_desired (cur des : vec3) :
  set_z (set_x cur (x (set_y des (y cur)))) (z (set_y des (y cur)))
  = set_y des (y cur).
Proof. destruct cur, des; reflexivity. Qed.

(** The four outcomes of the collision handling.  When the X step is taken
    the Z candidate is the full move again, which is known to collide. *)
Lemma processInput_slide_cases (obstacles : list Box) (r : float) (cur des : vec3) :
  processInput_slide obstacles r cur des
  = if collidesWithAnyObstacle obstacles (set_y des (y cur)) r
    then if collidesWithAnyObstacle obstacles (set_x cur (x des)) r
         then if collidesWithAnyObstacle obstacles (set_z cur (z des)) r
              then cur
              else set_z cur (z des)
         else set_x cur (x des)
    else set_y des (y cur).
Proof.
  unfold processInput_slide; cbv zeta.
  destruct (collidesWithAnyObstacle obstacles (set_y des (y cur)) r) eqn:Hfull;
    cbn [negb]; [|reflexivity].
  change (x (set_y des (y cur))) with (x des).
  change (z (set_y des (y cur))) with (z des).
  destruct (collidesWithAnyObstacle obstacles (set_x cur (x des)) r) eqn:HX;
    cbn [negb].
  - destruct (collidesWithAnyObstacle obstacles (set_z cur (z des)) r);
      reflexivity.
  - change (x (set_x cur (x des))) with (x des).
    pose proof (set_z_set_x_is_desired cur des) as E.
    change (x (set_y des (y cur))) with (x des) in E.
    change (z (set_y des (y cur))) with (z des) in E.
    rewrite E, Hfull. cbn [negb].
    destruct cur; reflexivity.
Qed.

(** Case analysis on every obstacle test the slide makes. *)
Ltac slide_branches :=
  rewrite ?processInput_slide_cases;
  repeat match goal with
    | |- context [if collidesWithAnyObstacle ?o ?c ?r then _ else _] =>
        let E := fresh "Hhit" in
        destruct (collidesWithAnyObstacle o c r) eqn:E
    end.

Lemma processInput_slide_safe (obstacles : list Box) (r : float) (cur des : vec3) :
  collidesWithAnyObstacle obstacles cur r = false ->
  collidesWithAnyObstacle obstacles (processInput_slide obstacles r cur des) r
  = false.
Proof.
  intro Hstart. rewrite processInput_slide_cases.
  destruct (collidesWithAnyObstacle obstacles (set_y des (y cur)) r) eqn:Hfull;
    [|exact Hfull].
  destruct (collidesWithAnyObstacle obstacles (set_x cur (x des)) r) eqn:HX;
    [|exact HX].
  destruct (collidesWithAnyObstacle obstacles (set_z cur (z des)) r) eqn:HZ;
    [exact Hstart|exact HZ].
Qed.

(** C1.  From a position that collides with no obstacle, the position the
    collision handling produces collides with no obstacle; it is the full
    desired move when that move is not blocked; "blocked" means that the
    sphere overlaps at least one box of the set; and neither the test nor
    the resolved position depends on the order of the boxes. *)
Theorem slide_never_collides
    (obstacles : list Box) (radius : float) (objectPos desired : vec3)
    (Hstart : collidesWithAnyObstacle obstacles objectPos radius = false) :
  collidesWithAnyObstacle obstacles
    (processInput_slide obstacles radius objectPos desired) radius = false
  /\ (collidesWithAnyObstacle obstacles (set_y desired (y objectPos)) radius = false
      -> processInput_slide obstacles radius objectPos desired
         = set_y desired (y objectPos))
  /\ (forall center,
        collidesWithAnyObstacle obstacles center radius = true
        <-> exists b, In b obstacles /\ sphereIntersectsAABB center radius b = true)
  /\ (forall obstacles' center, Permutation obstacles obstacles' ->
        collidesWithAnyObstacle obstacles' center radius
        = collidesWithAnyObstacle obstacles center radius)
  /\ (forall obstacles', Permutation obstacles obstacles' ->
        processInput_slide obstacles' radius objectPos desired
        = processInput_slide obstacles radius objectPos desired).
Proof.
  split; [|split; [|split; [|split]]];
    try (intros obstacles' P; rewrite !processInput_slide_cases,
           !(collidesWithAnyObstacle_Permutation _ _ _ _ P); reflexivity);
    rewrite ?processInput_slide_cases.
  - rewrite <- processInput_slide_cases. now apply processInput_slide_safe.
  - intros ->. reflexivity.
  - intro center. apply collidesWithAnyObstacle_true_iff.
  - intros. now apply collidesWithAnyObstacle_Permutation.
Qed.

Lemma slide_never_collides_witness :
  collidesWithAnyObstacle mazeObstacles
    (processInput_slide mazeObstacles 0.5 cornerPos cornerDesired) 0.5 = false.
Proof.
  refine (proj1 (slide_never_collides mazeObstacles 0.5 cornerPos cornerDesired _)).
  vm_compute. reflexivity.
Defined.

(** The collision tests do not tell apart two representations of a point. *)
Lemma sphereIntersectsAABB_vec3_eq (c c' : vec3) (r : float) (b : Box) :
  vec3_eq c c' -> sphereIntersectsAABB c r b = sphereIntersectsAABB c' r b.
Proof.
  intros (Hx & Hy & Hz). unfold sphereIntersectsAABB; cbv zeta.
  apply fltb_compat; [|reflexivity].
  rewrite Hx, Hy, Hz. reflexivity.
Qed.

Lemma collidesWithAnyObstacle_vec3_eq (obstacles : list Box) (c c' : vec3) (r : float) :
  vec3_eq c c' ->
  collidesWithAnyObstacle obstacles c r = collidesWithAnyObstacle obstacles c' r.
Proof.
  intro E. induction obstacles as [|b rest IH]; cbn; [reflexivity|].
  now rewrite (sphereIntersectsAABB_vec3_eq c c' r b E), IH.
Qed.

(** C10.  Each coordinate of the resolved position is taken from the
    current or from the desired position: X is the current or the desired
    X, Z is the current or the desired Z, and Y is the current Y. *)
Theorem slide_coordinates_from_inputs
    (obstacles : list Box) (radius : float) (objectPos desired : vec3) :
  (x (processInput_slide obstacles radius objectPos desired) = x objectPos
   \/ x (processInput_slide obstacles radius objectPos desired) = x desired)
  /\ (z (processInput_slide obstacles radius objectPos desired) = z objectPos
      \/ z (processInput_slide obstacles radius objectPos desired) = z desired)
  /\ y (processInput_slide obstacles radius objectPos desired) = y objectPos.
Proof. slide_branches; cbn; auto. Qed.

(** C3, as the program has it.  When the full move is blocked, the X-only
    candidate keeps the current Z, and X becomes the desired X exactly when
    that candidate does not collide.  The Z-only candidate is built from the
    position after the X step, so Z becomes the desired Z exactly when the
    X-only candidate collides and the Z-only candidate at the current X does
    not.  In particular, when the X-only candidate passes and the Z-only
    candidate collides, the result has the desired X and the prior Z. *)
Theorem slide_axis_by_axis
    (obstacles : list Box) (radius : float) (objectPos desired : vec3)
    (Hblocked :
       collidesWithAnyObstacle obstacles (set_y desired (y objectPos)) radius = true) :
  x (processInput_slide obstacles radius objectPos desired)
  = (if collidesWithAnyObstacle obstacles (set_x objectPos (x desired)) radius
     then x objectPos else x desired)
  /\ z (processInput_slide obstacles radius objectPos desired)
     = (if collidesWithAnyObstacle obstacles (set_x objectPos (x desired)) radius
           && negb (collidesWithAnyObstacle obstacles
                      (set_z objectPos (z desired)) radius)
        then z desired else z objectPos)
  /\ (collidesWithAnyObstacle obstacles (set_x objectPos (x desired)) radius = false
      -> collidesWithAnyObstacle obstacles (set_z objectPos (z desired)) radius = true
      -> x (processInput_slide obstacles radius objectPos desired) = x desired
         /\ z (processInput_slide obstacles radius objectPos desired) = z objectPos).
Proof.
  rewrite processInput_slide_cases, Hblocked.
  destruct (collidesWithAnyObstacle obstacles (set_x objectPos (x desired)) radius);
    destruct (collidesWithAnyObstacle obstacles (set_z objectPos (z desired)) radius);
    cbn; repeat split; intros; try discriminate; reflexivity.
Qed.

Lemma slide_axis_by_axis_witness :
  x (processInput_slide mazeObstacles 0.5 cornerPos cornerDesired) = x cornerDesired
  /\ z (processInput_slide mazeObstacles 0.5 cornerPos cornerDesired) = z cornerPos.
Proof.
  pose proof (slide_axis_by_axis mazeObstacles 0.5 cornerPos cornerDesired) as H.
  destruct H as (Hx & Hz & _); [vm_compute; reflexivity|].
  split; [rewrite Hx|rewrite Hz]; vm_compute; reflexivity.
Defined.

(** At the corner both single-axis candidates pass, and yet Z keeps its
    prior value: the Z step is not decided by the Z-only candidate at the
    pre-move X alone. *)
Lemma slide_axes_not_independent :
  collidesWithAnyObstacle mazeObstacles (set_y cornerDesired (y cornerPos)) 0.5 = true
  /\ collidesWithAnyObstacle mazeObstacles (set_x cornerPos (x cornerDesired)) 0.5 = false
  /\ collidesWithAnyObstacle mazeObstacles (set_z cornerPos (z cornerDesired)) 0.5 = false
  /\ ~ z (processInput_slide mazeObstacles 0.5 cornerPos cornerDesired)
       == z cornerDesired.
Proof.
  repeat split; try (vm_compute; reflexivity).
  intro H. vm_compute in H. discriminate H.
Qed.

(** C4, as the program has it.  When the full move is blocked at most one
    axis moves: the result is the X-only candidate, the Z-only candidate or
    the unchanged position, one of X and Z keeps its prior value, and when
    both single-axis candidates pass it is X that advances while Z stays. *)
Theorem slide_moves_at_most_one_axis
    (obstacles : list Box) (radius : float) (objectPos desired : vec3)
    (Hblocked :
       collidesWithAnyObstacle obstacles (set_y desired (y objectPos)) radius = true) :
  (processInput_slide obstacles radius objectPos desired = set_x objectPos (x desired)
   \/ processInput_slide obstacles radius objectPos desired = set_z objectPos (z desired)
   \/ processInput_slide obstacles radius objectPos desired = objectPos)
  /\ (x (processInput_slide obstacles radius objectPos desired) = x objectPos
      \/ z (processInput_slide obstacles radius objectPos desired) = z objectPos)
  /\ (collidesWithAnyObstacle obstacles (set_x objectPos (x desired)) radius = false
      -> collidesWithAnyObstacle obstacles (set_z objectPos (z desired)) radius = false
      -> processInput_slide obstacles radius objectPos desired
         = set_x objectPos (x desired)).
Proof.
  rewrite processInput_slide_cases, Hblocked.
  destruct (collidesWithAnyObstacle obstacles (set_x objectPos (x desired)) radius);
    destruct (collidesWithAnyObstacle obstacles (set_z objectPos (z desired)) radius);
    cbn; repeat split; intros; try discriminate; auto.
Qed.

Lemma slide_moves_at_most_one_axis_witness :
  processInput_slide mazeObstacles 0.5 cornerPos cornerDesired
  = set_x cornerPos (x cornerDesired).
Proof.
  refine (proj2 (proj2 (slide_moves_at_most_one_axis
                          mazeObstacles 0.5 cornerPos cornerDesired _)) _ _);
    vm_compute; reflexivity.
Defined.

(** No blocked move lets both single-axis candidates pass and ends with
    both X and Z at their desired values. *)
Lemma slide_never_moves_both_axes :
  ~ exists (obstacles : list Box) (radius : float) (objectPos desired : vec3),
      collidesWithAnyObstacle obstacles (set_y desired (y objectPos)) radius = true
      /\ collidesWithAnyObstacle obstacles (set_x objectPos (x desired)) radius = false
      /\ collidesWithAnyObstacle obstacles (set_z objectPos (z desired)) radius = false
      /\ x (processInput_slide obstacles radius objectPos desired) == x desired
      /\ z (processInput_slide obstacles radius objectPos desired) == z desired.
Proof.
  intros (obstacles & radius & cur & des & Hfull & HX & HZ & Ex & Ez).
  rewrite processInput_slide_cases, Hfull, HX in Ez. cbn in Ez.
  assert (E : vec3_eq (set_x cur (x des)) (set_y des (y cur))).
  { split; [|split]; cbn; [reflexivity|reflexivity|exact Ez]. }
  rewrite (collidesWithAnyObstacle_vec3_eq _ _ _ _ E) in HX. congruence.
Qed.

(** ** Support height *)

Lemma spansXZ_test (p : Box) (x z : float) :
  fleb (glm.x (min p)) x && fleb x (glm.x (max p))
  && fleb (glm.z (min p)) z && fleb z (glm.z (max p)) = true
  <-> spansXZ p x z.
Proof.
  unfold spansXZ. rewrite !andb_true_iff, !fleb_true_iff. tauto.
Qed.

Lemma highestPlatformInv_step (x z : float) (seen : list Box)
    (acc : bool * float) (p : Box) :
  highestPlatformInv x z seen acc ->
  highestPlatformInv x z (seen ++ [p]) (highestPlatformStep x z acc p).
Proof.
  destruct acc as [found best]. intros [Hub Hfound].
  unfold highestPlatformStep, highestPlatformInv in *; cbn [fst snd] in *.
  destruct (fleb (glm.x (min p)) x && fleb x (glm.x (max p))
            && fleb (glm.z (min p)) z && fleb z (glm.z (max p))) eqn:Hin.
  - apply spansXZ_test in Hin.
    destruct (fltb_spec best (y (max p))) as [Hlt|Hge]; cbn [fst snd].
    + split.
      * intros q Hq Hs. apply in_app_or in Hq. destruct Hq as [Hq|[<-|[]]].
        -- specialize (Hub q Hq Hs). lra.
        -- apply Qle_refl.
      * split.
        -- destruct found; [destruct Hfound as [Hb _]; lra|rewrite Hfound in Hlt; exact Hlt].
        -- exists p. split; [apply in_or_app; right; now left|now split].
    + split.
      * intros q Hq Hs. apply in_app_or in Hq. destruct Hq as [Hq|[<-|[]]].
        -- exact (Hub q Hq Hs).
        -- lra.
      * destruct found; [|exact Hfound].
        destruct Hfound as [Hb (q & Hq & Hs & Ht)]. split; [exact Hb|].
        exists q. split; [apply in_or_app; now left|now split].
  - assert (Hout : ~ spansXZ p x z).
    { intro Hs. apply spansXZ_test in Hs. congruence. }
    cbn [fst snd]. split.
    + intros q Hq Hs. apply in_app_or in Hq. destruct Hq as [Hq|[<-|[]]].
      * exact (Hub q Hq Hs).
      * contradiction.
    + destruct found; [|exact Hfound].
      destruct Hfound as [Hb (q & Hq & Hs & Ht)]. split; [exact Hb|].
      exists q. split; [apply in_or_app; now left|now split].
Qed.

Lemma highestPlatformInv_fold (x z : float) (platforms : list Box) :
  highestPlatformInv x z platforms
    (fold_left (highestPlatformStep x z) platforms (false, -1e9)).
Proof.
  induction platforms as [|p seen IH] using rev_ind.
  - split; [intros p []|reflexivity].
  - rewrite fold_left_app. cbn [fold_left]. now apply highestPlatformInv_step.
Qed.

(** The result of the scan: a height is the top of a platform under the
    point, above [-1e9] and not below the top of any platform under the
    point; no height means that every platform under the point has its top
    at or below [-1e9]. *)
Lemma highestPlatformTopAtXZ_spec (platforms : list Box) (x z : float) :
  match highestPlatformTopAtXZ platforms x z with
  | Some h =>
      -1e9 < h
      /\ (exists p, In p platforms /\ spansXZ p x z /\ y (max p) = h)
      /\ (forall p, In p platforms -> spansXZ p x z -> y (max p) <= h)
  | None =>
      forall p, In p platforms -> spansXZ p x z -> y (max p) <= -1e9
  end.
Proof.
  unfold highestPlatformTopAtXZ.
  pose proof (highestPlatformInv_fold x z platforms) as [Hub Hfound].
  destruct (fold_left (highestPlatformStep x z) platforms (false, -1e9))
    as [found best]; cbn [fst snd] in *.
  destruct found.
  - destruct Hfound as [Hb Hex]. repeat split; assumption.
  - intros p Hp Hs. rewrite <- Hfound. exact (Hub p Hp Hs).
Qed.

Lemma highestPlatformTopAtXZ_none_outside (platforms : list Box) (x z : float) :
  (forall p, In p platforms -> ~ spansXZ p x z) ->
  highestPlatformTopAtXZ platforms x z = None.
Proof.
  intro Hnone. pose proof (highestPlatformTopAtXZ_spec platforms x z) as H.
  destruct (highestPlatformTopAtXZ platforms x z) as [h|]; [|reflexivity].
  destruct H as (_ & (p & Hp & Hs & _) & _). destruct (Hnone p Hp Hs).
Qed.

(** X1.  When every platform has its top above [-1e9], the scan returns the
    maximum top among the platforms under the point, and no height exactly
    when no platform is under the point. *)
Theorem highestPlatformTopAtXZ_above_floor
    (platforms : list Box) (x z : float)
    (Hfloor : forall p, In p platforms -> -1e9 < y (max p)) :
  (forall h, highestPlatformTopAtXZ platforms x z = Some h ->
     (exists p, In p platforms /\ spansXZ p x z /\ y (max p) = h)
     /\ (forall p, In p platforms -> spansXZ p x z -> y (max p) <= h))
  /\ (highestPlatformTopAtXZ platforms x z = None
      <-> forall p, In p platforms -> ~ spansXZ p x z).
Proof.
  pose proof (highestPlatformTopAtXZ_spec platforms x z) as H.
  split.
  - intros h E. rewrite E in H. destruct H as (_ & Hex & Hub). now split.
  - split.
    + intros E p Hp Hs. rewrite E in H.
      specialize (H p Hp Hs). specialize (Hfloor p Hp). lra.
    + apply highestPlatformTopAtXZ_none_outside.
Qed.

Lemma highestPlatformTopAtXZ_above_floor_witness :
  highestPlatformTopAtXZ mazePlatforms 100 100 = None
  <-> forall p, In p mazePlatforms -> ~ spansXZ p 100 100.
Proof.
  refine (proj2 (highestPlatformTopAtXZ_above_floor mazePlatforms 100 100 _)).
  intros p [<-|[<-|[<-|[]]]]; cbn; lra.
Defined.

(** C5, as the program has it.  When every platform has its top above
    [-1e9], the value [best]
    starts from: if some platform is under the point, the scan returns the
    top of one of them and no platform under the point has a higher top;
    it returns no support exactly when no platform is under the point
    (bounds included); and on the ground platform alone it returns [0.0]
    at [(0, 0)] and no support at [(100, 100)]. *)
Theorem highestPlatformTopAtXZ_highest_top
    (platforms : list Box) (x z : float)
    (Hfloor : forall p, In p platforms -> -1e9 < y (max p)) :
  ((exists p, In p platforms /\ spansXZ p x z) ->
   exists h p,
     highestPlatformTopAtXZ platforms x z = Some h
     /\ In p platforms /\ spansXZ p x z /\ y (max p) = h
     /\ (forall q, In q platforms -> spansXZ q x z -> y (max q) <= h))
  /\ ((forall p, In p platforms -> ~ spansXZ p x z)
      <-> highestPlatformTopAtXZ platforms x z = None)
  /\ highestPlatformTopAtXZ
       [mkBox (mkvec3 (-20.0) (-0.1) (-20.0)) (mkvec3 20.0 0.0 20.0)] 0 0
     = Some 0.0
  /\ highestPlatformTopAtXZ
       [mkBox (mkvec3 (-20.0) (-0.1) (-20.0)) (mkvec3 20.0 0.0 20.0)] 100 100
     = None.
Proof.
  pose proof (highestPlatformTopAtXZ_spec platforms x z) as H.
  split; [|split; [split|split]].
  - intros (p & Hp & Hs).
    destruct (highestPlatformTopAtXZ platforms x z) as [h|].
    + destruct H as (_ & (q & Hq & Hqs & Hqt) & Hub).
      exists h, q. repeat split; try assumption; apply Hqs.
    + specialize (H p Hp Hs). specialize (Hfloor p Hp). lra.
  - apply highestPlatformTopAtXZ_none_outside.
  - intros E p Hp Hs. rewrite E in H.
    specialize (H p Hp Hs). specialize (Hfloor p Hp). lra.
  - vm_compute. reflexivity.
  - vm_compute. reflexivity.
Qed.

Lemma highestPlatformTopAtXZ_highest_top_witness :
  exists h p,
    highestPlatformTopAtXZ mazePlatforms 8 (-5) = Some h
    /\ In p mazePlatforms /\ spansXZ p 8 (-5) /\ y (max p) = h
    /\ (forall q, In q mazePlatforms -> spansXZ q 8 (-5) -> y (max q) <= h).
Proof.
  refine (proj1 (highestPlatformTopAtXZ_highest_top mazePlatforms 8 (-5) _) _).
  - intros p [<-|[<-|[<-|[]]]]; cbn; lra.
  - exists (mkBox (mkvec3 6.0 1.1 (-8.0)) (mkvec3 12.0 2.1 (-2.0))).
    split; [right; right; left; reflexivity|].
    unfold spansXZ; cbn; lra.
Defined.

(** A platform whose top is below [-1e9] is never found: it is under the
    point, its top is [-2e9], and the scan reports no support. *)
Lemma highestPlatformTopAtXZ_misses_deep_platform :
  spansXZ deepPlatform 0 0
  /\ y (max deepPlatform) == -2e9
  /\ highestPlatformTopAtXZ [deepPlatform] 0 0 = None.
Proof.
  split; [|split].
  - unfold spansXZ; cbn; lra.
  - reflexivity.
  - vm_compute. reflexivity.
Qed.

(** ** Pitch and distance clamps *)

Lemma mouse_callback_pitch_range (g : Globals) (xpos ypos : float) :
  -89.0 <= camPitch (mouse_callback g xpos ypos) <= 89.0.
Proof.
  unfold mouse_callback; cbn [camPitch].
  set (p := camPitch g + _).
  destruct (fltb_spec 89.0 p) as [A|A].
  - destruct (fltb_spec 89.0 (-89.0)) as [B|B]; lra.
  - destruct (fltb_spec p (-89.0)) as [B|B]; lra.
Qed.

Lemma scroll_callback_distance_range (g : Globals) (xoffset yoffset : float) :
  1.2 <= camDistance (scroll_callback g xoffset yoffset) <= 10.0.
Proof.
  unfold scroll_callback; cbn [camDistance]. unfold std.max, std.min.
  set (d := camDistance g - _).
  destruct (fltb_spec d 10.0) as [A|A].
  - destruct (fltb_spec 1.2 d) as [B|B]; lra.
  - destruct (fltb_spec 1.2 10.0) as [B|B]; lra.
Qed.

Lemma mouse_callback_pitch_saturates (g : Globals) (xpos ypos : float) :
  firstMouse g = false ->
  89.0 < camPitch g + (lastY g - ypos) * mouseSensitivity g ->
  camPitch (mouse_callback g xpos ypos) = 89.0.
Proof.
  intros Hfirst Hbig. unfold mouse_callback; cbn [camPitch]. rewrite Hfirst.
  destruct (fltb_spec 89.0 (camPitch g + (lastY g - ypos) * mouseSensitivity g))
    as [A|A]; [|contradiction].
  destruct (fltb_spec 89.0 (-89.0)) as [B|B]; [lra|reflexivity].
Qed.

Lemma scroll_callback_zoom_in_limit (g : Globals) (xoffset yoffset : float) :
  camDistance g - yoffset * 0.4 <= 1.2 ->
  camDistance (scroll_callback g xoffset yoffset) = 1.2.
Proof.
  intro H. unfold scroll_callback; cbn [camDistance]. unfold std.max, std.min.
  destruct (fltb_spec (camDistance g - yoffset * 0.4) 10.0) as [A|A]; [|lra].
  destruct (fltb_spec 1.2 (camDistance g - yoffset * 0.4)) as [B|B];
    [lra|reflexivity].
Qed.

Lemma scroll_callback_zoom_out_limit (g : Globals) (xoffset yoffset : float) :
  10.0 <= camDistance g - yoffset * 0.4 ->
  camDistance (scroll_callback g xoffset yoffset) = 10.0.
Proof.
  intro H. unfold scroll_callback; cbn [camDistance]. unfold std.max, std.min.
  destruct (fltb_spec (camDistance g - yoffset * 0.4) 10.0) as [A|A]; [lra|].
  destruct (fltb_spec 1.2 10.0) as [B|B]; [reflexivity|lra].
Qed.

(** C7, as the program has it.  After every pointer update the pitch lies
    in [[-89, 89]] and after every scroll update the distance lies in
    [[1.2, 10.0]]; a pitch delta that carries the pitch past 89 leaves it at
    exactly 89.0; a scroll delta large enough in the positive direction
    leaves the distance at exactly 1.2, and one large enough in the negative
    direction leaves it at exactly 10.0. *)
Theorem camera_clamps :
  (forall g xpos ypos, -89.0 <= camPitch (mouse_callback g xpos ypos) <= 89.0)
  /\ (forall g xoffset yoffset,
        1.2 <= camDistance (scroll_callback g xoffset yoffset) <= 10.0)
  /\ (forall g xpos ypos,
        firstMouse g = false ->
        89.0 < camPitch g + (lastY g - ypos) * mouseSensitivity g ->
        camPitch (mouse_callback g xpos ypos) = 89.0)
  /\ (forall g xoffset yoffset,
        (camDistance g - 1.2) / 0.4 <= yoffset ->
        camDistance (scroll_callback g xoffset yoffset) = 1.2)
  /\ (forall g xoffset yoffset,
        yoffset <= (camDistance g - 10.0) / 0.4 ->
        camDistance (scroll_callback g xoffset yoffset) = 10.0).
Proof.
  split; [exact mouse_callback_pitch_range|].
  split; [exact scroll_callback_distance_range|].
  split; [exact mouse_callback_pitch_saturates|].
  split; intros g xoffset yoffset H.
  - apply scroll_callback_zoom_in_limit.
    assert (E : camDistance g - 1.2 == (camDistance g - 1.2) / 0.4 * 0.4)
      by (field; discriminate).
    lra.
  - apply scroll_callback_zoom_out_limit.
    assert (E : camDistance g - 10.0 == (camDistance g - 10.0) / 0.4 * 0.4)
      by (field; discriminate).
    lra.
Qed.

Lemma camera_clamps_witness :
  camPitch (mouse_callback trackingGlobals 400 (300 - 1000 / 0.12)) = 89.0
  /\ camDistance (scroll_callback initialGlobals 0 1000) = 1.2
  /\ camDistance (scroll_callback initialGlobals 0 (-1000)) = 10.0.
Proof.
  destruct camera_clamps as (_ & _ & Hpitch & Hin & Hout).
  split; [|split].
  - apply Hpitch; [reflexivity|vm_compute; reflexivity].
  - apply Hin. vm_compute. discriminate.
  - apply Hout. vm_compute. discriminate.
Defined.

(** A large negative scroll delta leaves the distance at 10.0, not at 1.2. *)
Lemma scroll_negative_is_not_zoom_in :
  camDistance (scroll_callback initialGlobals 0 (-1000)) = 10.0
  /\ ~ camDistance (scroll_callback initialGlobals 0 (-1000)) == 1.2.
Proof.
  split; [vm_compute; reflexivity|].
  intro H. vm_compute in H. discriminate H.
Qed.

(** ** Frame update and camera, for any math library *)

Lemma set_y_same (p : vec3) : set_y p (y p) = p.
Proof. destruct p; reflexivity. Qed.

Lemma processInput_slide_y (obs : list Box) (r : float) (cur des : vec3) :
  y (processInput_slide obs r cur des) = y cur.
Proof. slide_branches; reflexivity. Qed.

Lemma processInput_slide_still (obs : list Box) (r : float) (p : vec3) :
  collidesWithAnyObstacle obs p r = false -> processInput_slide obs r p p = p.
Proof.
  intro Hfree. rewrite processInput_slide_cases, set_y_same, Hfree. reflexivity.
Qed.

Section LibmFacts.

Variables cos sin : float -> float.
Variable radians : float -> float.
Variable inversesqrt : float -> float.
Variable mat4 : Type.
Variable lookAt : vec3 -> vec3 -> vec3 -> mat4.

Lemma processInput_desired_noKeys (window : Window) (g : Globals) :
  KEY_W window = false -> KEY_S window = false ->
  KEY_A window = false -> KEY_D window = false ->
  processInput_desired cos sin radians inversesqrt window g = objectPos g.
Proof.
  intros W S A D. unfold processInput_desired; cbv zeta.
  rewrite W, S, A, D. reflexivity.
Qed.

(** The collision handling of a frame keeps a free actor free. *)
Lemma processInput_horizontal_safe (window : Window) (g : Globals) :
  collidesWithAnyObstacle (obstacles g) (objectPos g) (objectRadius g) = false ->
  collidesWithAnyObstacle (obstacles g)
    (processInput_horizontal cos sin radians inversesqrt window g)
    (objectRadius g) = false.
Proof. apply processInput_slide_safe. Qed.

(** C9.  From a position that collides with no obstacle, resolving a move
    whose desired position is the current position returns the position
    unchanged, for every radius; this is what a frame with no movement key
    pressed does. *)
Theorem standing_still_is_unchanged
    (obs : list Box) (r : float) (p : vec3)
    (Hfree : collidesWithAnyObstacle obs p r = false) :
  processInput_slide obs r p p = p
  /\ (forall window g,
        obstacles g = obs -> objectRadius g = r -> objectPos g = p ->
        KEY_W window = false -> KEY_S window = false ->
        KEY_A window = false -> KEY_D window = false ->
        processInput_horizontal cos sin radians inversesqrt window g = p).
Proof.
  split; [now apply processInput_slide_still|].
  intros window g Ho Hr Hp W S A D. unfold processInput_horizontal.
  rewrite (processInput_desired_noKeys window g W S A D), Ho, Hr, Hp.
  now apply processInput_slide_still.
Qed.

(** C6.  The scan answers with a value or with "none", and when no platform
    spans the actor's horizontal position the frame update leaves the
    actor's vertical coordinate as it was; the horizontal coordinates are
    those of the collision handling. *)
Theorem processInput_holds_height_without_support
    (window : Window) (g : Globals)
    (Hnone : forall p, In p (platforms g) ->
       ~ spansXZ p
           (x (processInput_horizontal cos sin radians inversesqrt window g))
           (z (processInput_horizontal cos sin radians inversesqrt window g))) :
  highestPlatformTopAtXZ (platforms g)
    (x (processInput_horizontal cos sin radians inversesqrt window g))
    (z (processInput_horizontal cos sin radians inversesqrt window g)) = None
  /\ y (objectPos (processInput cos sin radians inversesqrt window g))
     = y (objectPos g)
  /\ objectPos (processInput cos sin radians inversesqrt window g)
     = processInput_horizontal cos sin radians inversesqrt window g.
Proof.
  pose proof (highestPlatformTopAtXZ_none_outside _ _ _ Hnone) as E.
  split; [exact E|].
  unfold processInput; cbn [objectPos]. unfold processInput_snap. rewrite E.
  split; [|reflexivity].
  unfold processInput_horizontal. apply processInput_slide_y.
Qed.

(** C8.  The camera of the main loop, coordinate by coordinate.  With
    [k = inversesqrt (cos yaw * cos yaw + 0 * 0 + sin yaw * sin yaw)], the
    factor by which [glm::normalize] scales [(cos yaw, 0, sin yaw)], the
    heading is [(cos yaw * k, 0, sin yaw * k)] and the camera position is
    [(target.x - cos yaw * k * distance, target.y + distance * sin pitch,
    target.z - sin yaw * k * distance)]: the pitch enters the vertical
    coordinate only.  The look target is the target position raised by
    0.8, whatever the yaw, the pitch and the distance, and the view
    transform is [lookAt] of that camera position, that look target and
    the vertical. *)
Theorem camera_follows_orbit_formula (g : Globals) :
  vec3_eq (headingForward cos sin inversesqrt (radians (camYaw g)))
    (mkvec3
       (cos (radians (camYaw g))
        * inversesqrt (cos (radians (camYaw g)) * cos (radians (camYaw g))
                       + 0 * 0
                       + sin (radians (camYaw g)) * sin (radians (camYaw g))))
       0
       (sin (radians (camYaw g))
        * inversesqrt (cos (radians (camYaw g)) * cos (radians (camYaw g))
                       + 0 * 0
                       + sin (radians (camYaw g)) * sin (radians (camYaw g)))))
  /\ vec3_eq (main_camPos cos sin radians inversesqrt g)
       (mkvec3
          (x (objectPos g)
           - cos (radians (camYaw g))
             * inversesqrt (cos (radians (camYaw g)) * cos (radians (camYaw g))
                            + 0 * 0
                            + sin (radians (camYaw g)) * sin (radians (camYaw g)))
             * camDistance g)
          (y (objectPos g) + camDistance g * sin (radians (camPitch g)))
          (z (objectPos g)
           - sin (radians (camYaw g))
             * inversesqrt (cos (radians (camYaw g)) * cos (radians (camYaw g))
                            + 0 * 0
                            + sin (radians (camYaw g)) * sin (radians (camYaw g)))
             * camDistance g))
  /\ (forall g', objectPos g' = objectPos g -> camYaw g' = camYaw g ->
        camDistance g' = camDistance g ->
        x (main_camPos cos sin radians inversesqrt g')
        = x (main_camPos cos sin radians inversesqrt g)
        /\ z (main_camPos cos sin radians inversesqrt g')
           = z (main_camPos cos sin radians inversesqrt g))
  /\ vec3_eq (main_camTarget g)
       (mkvec3 (x (objectPos g)) (y (objectPos g) + 0.8) (z (objectPos g)))
  /\ (forall g', objectPos g' = objectPos g -> main_camTarget g' = main_camTarget g)
  /\ (exists eye centre : vec3,
        main_view cos sin radians inversesqrt mat4 lookAt g
        = lookAt eye centre (mkvec3 0 1 0)
        /\ vec3_eq eye
             (mkvec3
                (x (objectPos g)
                 - cos (radians (camYaw g))
                   * inversesqrt (cos (radians (camYaw g)) * cos (radians (camYaw g))
                                  + 0 * 0
                                  + sin (radians (camYaw g)) * sin (radians (camYaw g)))
                   * camDistance g)
                (y (objectPos g) + camDistance g * sin (radians (camPitch g)))
                (z (objectPos g)
                 - sin (radians (camYaw g))
                   * inversesqrt (cos (radians (camYaw g)) * cos (radians (camYaw g))
                                  + 0 * 0
                                  + sin (radians (camYaw g)) * sin (radians (camYaw g)))
                   * camDistance g))
        /\ vec3_eq centre
             (mkvec3 (x (objectPos g)) (y (objectPos g) + 0.8) (z (objectPos g)))).
Proof.
  assert (Hcam : vec3_eq (main_camPos cos sin radians inversesqrt g)
            (mkvec3
               (x (objectPos g)
                - cos (radians (camYaw g))
                  * inversesqrt (cos (radians (camYaw g)) * cos (radians (camYaw g))
                                 + 0 * 0
                                 + sin (radians (camYaw g)) * sin (radians (camYaw g)))
                  * camDistance g)
               (y (objectPos g) + camDistance g * sin (radians (camPitch g)))
               (z (objectPos g)
                - sin (radians (camYaw g))
                  * inversesqrt (cos (radians (camYaw g)) * cos (radians (camYaw g))
                                 + 0 * 0
                                 + sin (radians (camYaw g)) * sin (radians (camYaw g)))
                  * camDistance g))).
  { unfold main_camPos, headingForward, normalize, vec3_eq, add, sub, scale, dot;
      cbn [x y z].
    repeat split; ring. }
  assert (Htarget : vec3_eq (main_camTarget g)
            (mkvec3 (x (objectPos g)) (y (objectPos g) + 0.8) (z (objectPos g)))).
  { unfold main_camTarget, vec3_eq, add; cbn [x y z]. repeat split; ring. }
  split.
  { unfold headingForward, normalize, vec3_eq, scale, dot; cbn [x y z].
    repeat split; ring. }
  split; [exact Hcam|].
  split.
  { intros g' Hp Hy Hd. unfold main_camPos, headingForward, normalize; cbn.
    rewrite Hp, Hy, Hd. split; reflexivity. }
  split; [exact Htarget|].
  split.
  { intros g' Hp. unfold main_camTarget. now rewrite Hp. }
  exists (main_camPos cos sin radians inversesqrt g), (main_camTarget g).
  split; [reflexivity|]. split; [exact Hcam|exact Htarget].
Qed.

End LibmFacts.

Lemma standing_still_is_unchanged_witness :
  processInput_horizontal HeadingZero.cos HeadingZero.sin HeadingZero.radians
    HeadingZero.inversesqrt noKeys initialGlobals
  = objectPos initialGlobals.
Proof.
  refine (proj2 (standing_still_is_unchanged HeadingZero.cos HeadingZero.sin
                   HeadingZero.radians HeadingZero.inversesqrt
                   mazeObstacles 0.5 (objectPos initialGlobals) _)
                noKeys initialGlobals _ _ _ _ _ _ _);
    vm_compute; reflexivity.
Defined.

Lemma processInput_holds_height_without_support_witness :
  y (objectPos (processInput HeadingZero.cos HeadingZero.sin HeadingZero.radians
                  HeadingZero.inversesqrt noKeys strandedGlobals))
  = y (objectPos strandedGlobals).
Proof.
  refine (proj1 (proj2 (processInput_holds_height_without_support
                          HeadingZero.cos HeadingZero.sin HeadingZero.radians
                          HeadingZero.inversesqrt noKeys strandedGlobals _))).
  assert (E : processInput_horizontal HeadingZero.cos HeadingZero.sin
                HeadingZero.radians HeadingZero.inversesqrt noKeys strandedGlobals
              = mkvec3 100 5 100) by (vm_compute; reflexivity).
  rewrite E.
  intros p [<-|[<-|[<-|[]]]]; unfold spansXZ; cbn; lra.
Defined.

(** The corner again, through a whole frame: with [W] and [D] held at
    heading zero the full step is blocked, both single-axis candidates pass,
    and the frame ends with the desired X and the prior Z. *)
Example diagonal_keys_at_the_corner :
  vec3_eq
    (processInput_desired HeadingZero.cos HeadingZero.sin HeadingZero.radians
       HeadingZero.inversesqrt keysWD cornerGlobals)
    cornerDesired
  /\ vec3_eq
       (processInput_horizontal HeadingZero.cos HeadingZero.sin
          HeadingZero.radians HeadingZero.inversesqrt keysWD cornerGlobals)
       (mkvec3 (x cornerDesired) 0 (z cornerPos)).
Proof. split; vm_compute; repeat split; reflexivity. Qed.

(** The vertical snap is outside the guarantee of the collision handling.
    Stepping off the third platform next to a wall, the actor is free
    before the frame and after its collision handling, the snap lowers it
    to the ground, and there it overlaps the wall. *)
Example snap_can_enter_an_obstacle :
  collidesWithAnyObstacle mazeObstacles (objectPos ledgeGlobals) 0.5 = false
  /\ collidesWithAnyObstacle mazeObstacles
       (processInput_horizontal HeadingZero.cos HeadingZero.sin
          HeadingZero.radians HeadingZero.inversesqrt keysD ledgeGlobals)
       0.5 = false
  /\ y (objectPos (processInput HeadingZero.cos HeadingZero.sin
                     HeadingZero.radians HeadingZero.inversesqrt keysD
                     ledgeGlobals)) = 0.0
  /\ collidesWithAnyObstacle mazeObstacles
       (objectPos (processInput HeadingZero.cos HeadingZero.sin
                     HeadingZero.radians HeadingZero.inversesqrt keysD
                     ledgeGlobals))
       0.5 = true.
Proof. repeat split; vm_compute; reflexivity. Qed.

(** * Further properties of the collision tests *)

Lemma sphereIntersectsAABB_radius_sq (c : vec3) (r r' : float) (b : Box) :
  r * r == r' * r' -> sphereIntersectsAABB c r b = sphereIntersectsAABB c r' b.
Proof.
  intro E. unfold sphereIntersectsAABB; cbv zeta.
  apply fltb_compat; [reflexivity|exact E].
Qed.

Lemma collidesWithAnyObstacle_radius_sq (obs : list Box) (c : vec3) (r r' : float) :
  r * r == r' * r' ->
  collidesWithAnyObstacle obs c r = collidesWithAnyObstacle obs c r'.
Proof.
  intro E. induction obs as [|b rest IH]; cbn; [reflexivity|].
  now rewrite (sphereIntersectsAABB_radius_sq c r r' b E), IH.
Qed.

(** The squared distance the test computes is never negative. *)
Lemma sphereIntersectsAABB_false_of_small (c : vec3) (r : float) (b : Box) :
  r * r <= 0 -> sphereIntersectsAABB c r b = false.
Proof.
  intro H. unfold sphereIntersectsAABB; cbv zeta. apply fltb_false_iff.
  set (dx := std.max _ _ - x c). set (dy := std.max _ _ - y c).
  set (dz := std.max _ _ - z c).
  pose proof (square_nonneg dx). pose proof (square_nonneg dy).
  pose proof (square_nonneg dz). lra.
Qed.

(** X2.  Only the square of the radius matters: a negative radius tests
    like its absolute value, and with radius zero nothing ever collides,
    not even a centre inside a box, so every move is accepted in full. *)
Theorem radius_sign_and_zero (obs : list Box) (c : vec3) (r : float) :
  collidesWithAnyObstacle obs c (- r) = collidesWithAnyObstacle obs c r
  /\ collidesWithAnyObstacle obs c 0 = false
  /\ (forall cur des,
        processInput_slide obs 0 cur des = set_y des (y cur)).
Proof.
  assert (Z : forall p, collidesWithAnyObstacle obs p 0 = false).
  { intro p. induction obs as [|b rest IH]; cbn; [reflexivity|].
    rewrite sphereIntersectsAABB_false_of_small by lra. exact IH. }
  split; [apply collidesWithAnyObstacle_radius_sq; ring|].
  split; [apply Z|].
  intros cur des. rewrite processInput_slide_cases, Z. reflexivity.
Qed.

(** X3.  The test is monotone in the radius: a sphere that overlaps an
    obstacle still overlaps it when its radius grows. *)
Theorem collision_monotone_in_radius
    (obs : list Box) (c : vec3) (r r' : float)
    (Hr : 0 <= r <= r')
    (Hhit : collidesWithAnyObstacle obs c r = true) :
  collidesWithAnyObstacle obs c r' = true.
Proof.
  apply collidesWithAnyObstacle_true_iff in Hhit.
  destruct Hhit as (b & Hb & Hs).
  apply collidesWithAnyObstacle_true_iff. exists b. split; [exact Hb|].
  unfold sphereIntersectsAABB in *; cbv zeta in *.
  apply fltb_true_iff in Hs. apply fltb_true_iff.
  assert (0 <= (r' - r) * (r' + r)) by (apply Qmult_le_0_compat; lra).
  lra.
Qed.

Lemma collision_monotone_in_radius_witness :
  collidesWithAnyObstacle mazeObstacles cornerDesired 0.75 = true.
Proof.
  apply (collision_monotone_in_radius mazeObstacles cornerDesired 0.5 0.75).
  - split; vm_compute; discriminate.
  - vm_compute. reflexivity.
Defined.

Lemma clampInto_inside (v lo hi : float) :
  lo <= v <= hi -> clampInto v lo hi == v.
Proof.
  intros [H1 H2]. unfold clampInto.
  destruct (fltb_spec v lo); [lra|].
  destruct (fltb_spec hi v); lra.
Qed.

Lemma sphereIntersectsAABB_inside (c : vec3) (r : float) (b : Box) :
  inBox c b -> ~ r == 0 -> sphereIntersectsAABB c r b = true.
Proof.
  intros Hin Hr.
  assert (Hwf : wellFormedBox b).
  { destruct Hin as (Hx & Hy & Hz). unfold wellFormedBox. lra. }
  rewrite (sphereIntersectsAABB_as_distance _ _ _ Hwf).
  apply fltb_true_iff.
  destruct Hin as (Hx & Hy & Hz).
  unfold squaredDistance, closestPointOfBox; cbn [x y z].
  rewrite (clampInto_inside _ _ _ Hx), (clampInto_inside _ _ _ Hy),
    (clampInto_inside _ _ _ Hz).
  assert (0 <= r * r) by apply square_nonneg.
  assert (~ r * r == 0).
  { intro E. apply Qmult_integral in E. tauto. }
  assert (E0 : (x c - x c) * (x c - x c) + (y c - y c) * (y c - y c)
               + (z c - z c) * (z c - z c) == 0) by ring.
  rewrite E0. lra.
Qed.

(** X4.  A centre inside a box overlaps it for every radius other than
    zero; so a position that collides with no obstacle lies inside none. *)
Theorem centre_inside_collides
    (obs : list Box) (c : vec3) (r : float) (b : Box)
    (Hb : In b obs) (Hin : inBox c b) (Hr : ~ r == 0) :
  sphereIntersectsAABB c r b = true
  /\ collidesWithAnyObstacle obs c r = true.
Proof.
  pose proof (sphereIntersectsAABB_inside c r b Hin Hr) as Hs.
  split; [exact Hs|].
  apply collidesWithAnyObstacle_true_iff. now exists b.
Qed.

Lemma centre_inside_collides_witness :
  collidesWithAnyObstacle mazeObstacles (mkvec3 (-19) 1 0) 0.5 = true.
Proof.
  refine (proj2 (centre_inside_collides mazeObstacles (mkvec3 (-19) 1 0) 0.5
                   westWall _ _ _)).
  - left. reflexivity.
  - unfold inBox; cbn; lra.
  - intro E. vm_compute in E. discriminate E.
Defined.

(** Case analysis on every comparison left in the goal. *)
Ltac fltb_cases :=
  repeat match goal with
    | |- context [fltb ?a ?b] =>
        lazymatch a with context [fltb _ _] => fail | _ => idtac end;
        lazymatch b with context [fltb _ _] => fail | _ => idtac end;
        destruct (fltb_spec a b)
    end.



Lemma square_lt_iff (a b : float) :
  0 <= a -> 0 < b -> (a * a < b * b <-> a < b).
Proof.
  intros Ha Hb. split; intro H.
  - destruct (Qlt_le_dec a b) as [L|G]; [exact L|].
    assert (0 <= (a - b) * (a + b)) by (apply Qmult_le_0_compat; lra). lra.
  - assert (0 < (b - a) * (b + a)) by (apply Qmult_lt_0_compat; lra). lra.
Qed.

(** The test along one axis when the centre is level with the box on the
    two other axes. *)
Lemma sphereIntersectsAABB_one_axis (c : vec3) (r : float) (b : Box) (k : float) :
  0 < r -> wellFormedBox b ->
  squaredDistance c (closestPointOfBox c b) == k * k -> 0 <= k ->
  (sphereIntersectsAABB c r b = false <-> r <= k).
Proof.
  intros Hr Hwf Hk Hk0.
  rewrite (sphereIntersectsAABB_as_distance _ _ _ Hwf), fltb_false_iff, Hk.
  pose proof (square_lt_iff k r Hk0 Hr) as S.
  split; intro H.
  - apply Qnot_lt_le. intro L. apply S in L. lra.
  - apply Qnot_lt_le. intro L. apply S in L. lra.
Qed.

Lemma clampInto_gap (v lo hi r : float) :
  0 < r -> lo <= hi ->
  exists k, 0 <= k
    /\ (v - clampInto v lo hi) * (v - clampInto v lo hi) == k * k
    /\ (r <= k <-> v + r <= lo \/ hi + r <= v).
Proof.
  intros Hr Hle. unfold clampInto.
  destruct (fltb_spec v lo) as [A|A].
  - exists (lo - v). split; [lra|]. split; [ring|].
    split; [intro; left; lra|intros [H|H]; lra].
  - destruct (fltb_spec hi v) as [B|B].
    + exists (v - hi). split; [lra|]. split; [ring|].
      split; [intro; right; lra|intros [H|H]; lra].
    + exists 0. split; [lra|]. split; [ring|].
      split; [intro; lra|intros [H|H]; lra].
Qed.

Lemma sphereIntersectsAABB_level_x (c : vec3) (r : float) (b : Box) :
  0 < r -> wellFormedBox b ->
  y (min b) <= y c <= y (max b) -> z (min b) <= z c <= z (max b) ->
  (sphereIntersectsAABB c r b = false
   <-> x c + r <= x (min b) \/ x (max b) + r <= x c).
Proof.
  intros Hr Hwf Hy Hz. pose proof Hwf as (Wx & Wy & Wz).
  destruct (clampInto_gap (x c) _ _ r Hr Wx) as (k & Hk0 & Hk & Hiff).
  rewrite <- Hiff.
  apply (sphereIntersectsAABB_one_axis c r b k Hr Hwf); [|exact Hk0].
  unfold squaredDistance, closestPointOfBox; cbn [x y z].
  rewrite (clampInto_inside _ _ _ Hy), (clampInto_inside _ _ _ Hz), <- Hk.
  ring.
Qed.

Lemma square_ge (k r : float) :
  0 <= r -> r <= k \/ k <= - r -> r * r <= k * k.
Proof.
  intros Hr [H|H].
  - assert (0 <= (k - r) * (k + r)) by (apply Qmult_le_0_compat; lra). lra.
  - assert (0 <= (0 - k - r) * (0 - k + r)) by (apply Qmult_le_0_compat; lra).
    lra.
Qed.

(** X6.  A sphere that is clear of a box along one axis is free of it.
    For a radius [r >= 0] and a well-formed box, a centre that lies at
    least [r] below [min] or at least [r] above [max] on one of the three
    axes does not collide, wherever it lies on the two other axes. *)
Theorem clear_along_one_axis_is_free
    (c : vec3) (r : float) (b : Box) (Hr : 0 <= r) (Hwf : wellFormedBox b)
    (Hclear : (x c + r <= x (min b) \/ x (max b) + r <= x c)
              \/ (y c + r <= y (min b) \/ y (max b) + r <= y c)
              \/ (z c + r <= z (min b) \/ z (max b) + r <= z c)) :
  sphereIntersectsAABB c r b = false.
Proof.
  rewrite (sphereIntersectsAABB_as_distance _ _ _ Hwf). apply fltb_false_iff.
  destruct Hwf as (Wx & Wy & Wz).
  unfold squaredDistance, closestPointOfBox; cbn [x y z].
  pose proof (clampInto_bounds (x c) _ _ Wx) as Bx.
  pose proof (clampInto_bounds (y c) _ _ Wy) as By.
  pose proof (clampInto_bounds (z c) _ _ Wz) as Bz.
  pose proof (square_nonneg (x c - clampInto (x c) (x (min b)) (x (max b)))) as Nx.
  pose proof (square_nonneg (y c - clampInto (y c) (y (min b)) (y (max b)))) as Ny.
  pose proof (square_nonneg (z c - clampInto (z c) (z (min b)) (z (max b)))) as Nz.
  destruct Hclear as [H|[H|H]].
  - pose proof (square_ge (x c - clampInto (x c) (x (min b)) (x (max b))) r Hr) as S.
    assert (r * r <= (x c - clampInto (x c) (x (min b)) (x (max b)))
                     * (x c - clampInto (x c) (x (min b)) (x (max b))))
      by (apply S; destruct H; [right|left]; lra).
    lra.
  - pose proof (square_ge (y c - clampInto (y c) (y (min b)) (y (max b))) r Hr) as S.
    assert (r * r <= (y c - clampInto (y c) (y (min b)) (y (max b)))
                     * (y c - clampInto (y c) (y (min b)) (y (max b))))
      by (apply S; destruct H; [right|left]; lra).
    lra.
  - pose proof (square_ge (z c - clampInto (z c) (z (min b)) (z (max b))) r Hr) as S.
    assert (r * r <= (z c - clampInto (z c) (z (min b)) (z (max b)))
                     * (z c - clampInto (z c) (z (min b)) (z (max b))))
      by (apply S; destruct H; [right|left]; lra).
    lra.
Qed.

Lemma clear_along_one_axis_is_free_witness :
  sphereIntersectsAABB (mkvec3 (-18.0) 1 3) 0.5 westWall = false
  /\ sphereIntersectsAABB (mkvec3 (-19) 3 0) 0.5 westWall = false.
Proof.
  split.
  - refine (clear_along_one_axis_is_free (mkvec3 (-18.0) 1 3) 0.5 westWall _ _ _).
    + lra.
    + unfold wellFormedBox; cbn; lra.
    + left. right. cbn. lra.
  - refine (clear_along_one_axis_is_free (mkvec3 (-19) 3 0) 0.5 westWall _ _ _).
    + lra.
    + unfold wellFormedBox; cbn; lra.
    + right. left. right. cbn. lra.
Defined.

(** * Further properties of the slide *)

(** X7.  Whatever the start, colliding or not, the collision handling
    either leaves the position where it is or puts it on a position that
    collides with no obstacle: it never moves the actor into a wall. *)
Theorem slide_moves_only_to_free_positions
    (obs : list Box) (r : float) (cur des : vec3) :
  processInput_slide obs r cur des = cur
  \/ collidesWithAnyObstacle obs (processInput_slide obs r cur des) r = false.
Proof.
  rewrite processInput_slide_cases.
  destruct (collidesWithAnyObstacle obs (set_y des (y cur)) r) eqn:Hfull;
    [|right; exact Hfull].
  destruct (collidesWithAnyObstacle obs (set_x cur (x des)) r) eqn:HX;
    [|right; exact HX].
  destruct (collidesWithAnyObstacle obs (set_z cur (z des)) r) eqn:HZ;
    [left; reflexivity|right; exact HZ].
Qed.

(** X8.  Resolving the same desired position a second time changes
    nothing: one pass of the collision handling already is its fixed
    point. *)
Theorem slide_idempotent (obs : list Box) (r : float) (cur des : vec3) :
  processInput_slide obs r (processInput_slide obs r cur des) des
  = processInput_slide obs r cur des.
Proof.
  destruct cur as [cx cy cz], des as [dx dy dz].
  rewrite (processInput_slide_cases obs r (mkvec3 cx cy cz)).
  unfold set_x, set_y, set_z; cbn [x y z].
  destruct (collidesWithAnyObstacle obs (mkvec3 dx cy dz) r) eqn:Hfull.
  - destruct (collidesWithAnyObstacle obs (mkvec3 dx cy cz) r) eqn:HX.
    + destruct (collidesWithAnyObstacle obs (mkvec3 cx cy dz) r) eqn:HZ;
        rewrite processInput_slide_cases;
        unfold set_x, set_y, set_z; cbn [x y z];
        rewrite ?Hfull, ?HX, ?HZ; reflexivity.
    + rewrite processInput_slide_cases.
      unfold set_x, set_y, set_z; cbn [x y z].
      rewrite ?Hfull, ?HX. reflexivity.
  - rewrite processInput_slide_cases.
    unfold set_x, set_y, set_z; cbn [x y z].
    rewrite Hfull. reflexivity.
Qed.

Lemma collidesWithAnyObstacle_app (l l' : list Box) (c : vec3) (r : float) :
  collidesWithAnyObstacle (l ++ l') c r
  = collidesWithAnyObstacle l c r || collidesWithAnyObstacle l' c r.
Proof.
  rewrite !collidesWithAnyObstacle_existsb. apply existsb_app.
Qed.

(** X9.  Obstacles only ever block.  A position free of a set of
    obstacles is free of every subset; with no obstacle at all every move
    is accepted in full; and when the current position is free of the
    larger set, a move the larger set accepts in full is the move the
    smaller set makes. *)
Theorem fewer_obstacles_block_less
    (obs obs' : list Box) (r : float) (Hsub : incl obs obs') :
  (forall c, collidesWithAnyObstacle obs' c r = false ->
             collidesWithAnyObstacle obs c r = false)
  /\ (forall cur des, processInput_slide [] r cur des = set_y des (y cur))
  /\ (forall cur des,
        collidesWithAnyObstacle obs' (set_y des (y cur)) r = false ->
        processInput_slide obs r cur des = processInput_slide obs' r cur des).
Proof.
  assert (M : forall c, collidesWithAnyObstacle obs' c r = false ->
                        collidesWithAnyObstacle obs c r = false).
  { intros c Hfree.
    destruct (collidesWithAnyObstacle obs c r) eqn:E; [|reflexivity].
    apply collidesWithAnyObstacle_true_iff in E. destruct E as (b & Hb & Hs).
    assert (collidesWithAnyObstacle obs' c r = true) as E'.
    { apply collidesWithAnyObstacle_true_iff. exists b. split; [now apply Hsub|exact Hs]. }
    congruence. }
  split; [exact M|]. split; [reflexivity|].
  intros cur des Hfree. rewrite !processInput_slide_cases, Hfree, (M _ Hfree).
  reflexivity.
Qed.

Lemma fewer_obstacles_block_less_witness :
  collidesWithAnyObstacle [westWall] cornerPos 0.5 = false.
Proof.
  refine (proj1 (fewer_obstacles_block_less [westWall] mazeObstacles 0.5 _) _ _).
  - intros b [<-|[]]. left. reflexivity.
  - vm_compute. reflexivity.
Defined.

(** * Further properties of the support height *)

Lemma Permutation_In_iff (l l' : list Box) (p : Box) :
  Permutation l l' -> (In p l <-> In p l').
Proof.
  intro P. split; intro H.
  - exact (Permutation_in _ P H).
  - exact (Permutation_in _ (Permutation_sym P) H).
Qed.

(** X10.  The height found does not depend on the order of the platforms:
    two orderings of the same platforms give both no support, or heights
    that are equal as numbers. *)
Theorem highestPlatformTopAtXZ_order_independent
    (platforms platforms' : list Box) (x z : float)
    (Hperm : Permutation platforms platforms') :
  height_eq (highestPlatformTopAtXZ platforms x z)
            (highestPlatformTopAtXZ platforms' x z).
Proof.
  pose proof (highestPlatformTopAtXZ_spec platforms x z) as H.
  pose proof (highestPlatformTopAtXZ_spec platforms' x z) as H'.
  destruct (highestPlatformTopAtXZ platforms x z) as [h|],
           (highestPlatformTopAtXZ platforms' x z) as [h'|]; cbn.
  - destruct H as (_ & (p & Hp & Hs & Ht) & Hub).
    destruct H' as (_ & (p' & Hp' & Hs' & Ht') & Hub').
    apply (Permutation_In_iff _ _ p Hperm) in Hp.
    apply (Permutation_In_iff _ _ p' Hperm) in Hp'.
    specialize (Hub p' Hp' Hs'). specialize (Hub' p Hp Hs).
    rewrite Ht in Hub'. rewrite Ht' in Hub. lra.
  - destruct H as (Hb & (p & Hp & Hs & Ht) & _).
    apply (Permutation_In_iff _ _ p Hperm) in Hp.
    specialize (H' p Hp Hs). rewrite Ht in H'. lra.
  - destruct H' as (Hb & (p & Hp & Hs & Ht) & _).
    apply (Permutation_In_iff _ _ p Hperm) in Hp.
    specialize (H p Hp Hs). rewrite Ht in H. lra.
  - exact I.
Qed.

Lemma highestPlatformTopAtXZ_order_independent_witness :
  height_eq (highestPlatformTopAtXZ mazePlatforms (-8) 8)
            (highestPlatformTopAtXZ (rev mazePlatforms) (-8) 8).
Proof.
  apply (highestPlatformTopAtXZ_order_independent mazePlatforms (rev mazePlatforms)).
  apply Permutation_rev.
Defined.

(** The snap moves the actor vertically only, and snapping twice is
    snapping once. *)
Theorem processInput_snap_vertical_and_idempotent
    (platforms : list Box) (p : vec3) :
  x (processInput_snap platforms p) = x p
  /\ z (processInput_snap platforms p) = z p
  /\ processInput_snap platforms (processInput_snap platforms p)
     = processInput_snap platforms p.
Proof.
  unfold processInput_snap.
  destruct (highestPlatformTopAtXZ platforms (x p) (z p)) as [h|] eqn:E.
  - cbn [x z set_y]. repeat split. rewrite E. reflexivity.
  - repeat split. rewrite E. reflexivity.
Qed.

(** X11.  The support function of the maze built in [main], for every
    point: 2.1 on the third platform, 1.6 on the second, 0.0 elsewhere on
    the ground square, and no support outside the ground square. *)
Theorem maze_support_heights (x z : float) :
  (spansXZ (mkBox (mkvec3 6.0 1.1 (-8.0)) (mkvec3 12.0 2.1 (-2.0))) x z ->
   highestPlatformTopAtXZ mazePlatforms x z = Some 2.1)
  /\ (spansXZ (mkBox (mkvec3 (-12.0) 0.6 6.0) (mkvec3 (-4.0) 1.6 10.0)) x z ->
      highestPlatformTopAtXZ mazePlatforms x z = Some 1.6)
  /\ (spansXZ (mkBox (mkvec3 (-20.0) (-0.1) (-20.0)) (mkvec3 20.0 0.0 20.0)) x z ->
      ~ spansXZ (mkBox (mkvec3 6.0 1.1 (-8.0)) (mkvec3 12.0 2.1 (-2.0))) x z ->
      ~ spansXZ (mkBox (mkvec3 (-12.0) 0.6 6.0) (mkvec3 (-4.0) 1.6 10.0)) x z ->
      highestPlatformTopAtXZ mazePlatforms x z = Some 0.0)
  /\ (~ spansXZ (mkBox (mkvec3 (-20.0) (-0.1) (-20.0)) (mkvec3 20.0 0.0 20.0)) x z ->
      highestPlatformTopAtXZ mazePlatforms x z = None).
Proof.
  pose proof (highestPlatformTopAtXZ_spec mazePlatforms x z) as H.
  set (ground := mkBox (mkvec3 (-20.0) (-0.1) (-20.0)) (mkvec3 20.0 0.0 20.0)) in *.
  set (second := mkBox (mkvec3 (-12.0) 0.6 6.0) (mkvec3 (-4.0) 1.6 10.0)) in *.
  set (third := mkBox (mkvec3 6.0 1.1 (-8.0)) (mkvec3 12.0 2.1 (-2.0))) in *.
  assert (Hg : In ground mazePlatforms) by (left; reflexivity).
  assert (H2 : In second mazePlatforms) by (right; left; reflexivity).
  assert (H3 : In third mazePlatforms) by (right; right; left; reflexivity).
  assert (D : forall q, In q mazePlatforms -> q = ground \/ q = second \/ q = third).
  { intros q [<-|[<-|[<-|[]]]]; auto. }
  assert (S23 : spansXZ third x z -> spansXZ second x z -> False).
  { unfold spansXZ, third, second; cbn. lra. }
  destruct (highestPlatformTopAtXZ mazePlatforms x z) as [h|].
  - destruct H as (_ & (q & Hq & Hs & Ht) & Hub).
    destruct (D q Hq) as [ -> | [ -> | -> ] ]; cbn in Ht; subst h.
    + repeat split.
      * intro S. specialize (Hub _ H3 S). cbn in Hub. lra.
      * intro S. specialize (Hub _ H2 S). cbn in Hub. lra.
      * intro N. contradiction.
    + repeat split.
      * intro S. destruct (S23 S Hs).
      * intros _ _ N. contradiction.
      * intro N. exfalso. apply N. unfold spansXZ, ground, second in *; cbn in *. lra.
    + repeat split.
      * intro S. destruct (S23 Hs S).
      * intros _ N. contradiction.
      * intro N. exfalso. apply N. unfold spansXZ, ground, third in *; cbn in *. lra.
  - repeat split.
    + intro S. specialize (H _ H3 S). cbn in H. lra.
    + intro S. specialize (H _ H2 S). cbn in H. lra.
    + intro S. specialize (H _ Hg S). cbn in H. lra.
Qed.

(** * Further properties of the callbacks *)

(** X12.  The first pointer sample only records the pointer: it turns the
    camera neither in yaw nor (from a pitch within the clamp) in pitch,
    whatever the sample is, and clears [firstMouse]. *)
Theorem first_pointer_sample_does_not_turn
    (g : Globals) (xpos ypos : float) (Hfirst : firstMouse g = true) :
  camYaw (mouse_callback g xpos ypos) == camYaw g
  /\ (-89.0 <= camPitch g <= 89.0 ->
      camPitch (mouse_callback g xpos ypos) == camPitch g)
  /\ lastX (mouse_callback g xpos ypos) = xpos
  /\ lastY (mouse_callback g xpos ypos) = ypos
  /\ firstMouse (mouse_callback g xpos ypos) = false.
Proof.
  unfold mouse_callback; cbn [camYaw camPitch lastX lastY firstMouse].
  rewrite Hfirst. split; [ring|]. split; [|auto].
  intros [Hlo Hhi].
  assert (E : camPitch g + (ypos - ypos) * mouseSensitivity g == camPitch g)
    by ring.
  destruct (fltb_spec 89.0 (camPitch g + (ypos - ypos) * mouseSensitivity g)).
  - lra.
  - destruct (fltb_spec (camPitch g + (ypos - ypos) * mouseSensitivity g) (-89.0));
      lra.
Qed.

Lemma first_pointer_sample_does_not_turn_witness :
  camYaw (mouse_callback initialGlobals 123 456) == camYaw initialGlobals.
Proof.
  refine (proj1 (first_pointer_sample_does_not_turn initialGlobals 123 456 _)).
  reflexivity.
Defined.

(** X13.  The direction of the pointer controls.  After the first sample
    and with a sensitivity that is not negative, moving the pointer to the
    right never lowers the yaw, and, from a pitch within the clamp, moving
    it up (towards smaller [ypos]) never lowers the pitch and moving it
    down never raises it. *)
Theorem pointer_direction
    (g : Globals) (xpos ypos : float)
    (Hseen : firstMouse g = false) (Hsens : 0 <= mouseSensitivity g) :
  (lastX g <= xpos -> camYaw g <= camYaw (mouse_callback g xpos ypos))
  /\ (xpos <= lastX g -> camYaw (mouse_callback g xpos ypos) <= camYaw g)
  /\ (-89.0 <= camPitch g <= 89.0 -> ypos <= lastY g ->
      camPitch g <= camPitch (mouse_callback g xpos ypos))
  /\ (-89.0 <= camPitch g <= 89.0 -> lastY g <= ypos ->
      camPitch (mouse_callback g xpos ypos) <= camPitch g).
Proof.
  unfold mouse_callback; cbn [camYaw camPitch]. rewrite Hseen.
  split; [|split; [|split]].
  - intro H.
    assert (0 <= (xpos - lastX g) * mouseSensitivity g)
      by (apply Qmult_le_0_compat; lra). lra.
  - intro H.
    assert (0 <= (lastX g - xpos) * mouseSensitivity g)
      by (apply Qmult_le_0_compat; lra). lra.
  - intros [Hlo Hhi] H.
    assert (0 <= (lastY g - ypos) * mouseSensitivity g)
      by (apply Qmult_le_0_compat; lra).
    destruct (fltb_spec 89.0 (camPitch g + (lastY g - ypos) * mouseSensitivity g)).
    + destruct (fltb_spec 89.0 (-89.0)); lra.
    + destruct (fltb_spec (camPitch g + (lastY g - ypos) * mouseSensitivity g) (-89.0));
        lra.
  - intros [Hlo Hhi] H.
    assert (0 <= (ypos - lastY g) * mouseSensitivity g)
      by (apply Qmult_le_0_compat; lra).
    destruct (fltb_spec 89.0 (camPitch g + (lastY g - ypos) * mouseSensitivity g)).
    + destruct (fltb_spec 89.0 (-89.0)); lra.
    + destruct (fltb_spec (camPitch g + (lastY g - ypos) * mouseSensitivity g) (-89.0));
        lra.
Qed.

Lemma pointer_direction_witness :
  camYaw trackingGlobals <= camYaw (mouse_callback trackingGlobals 500 300).
Proof.
  refine (proj1 (pointer_direction trackingGlobals 500 300 _ _) _).
  - reflexivity.
  - vm_compute. discriminate.
  - vm_compute. discriminate.
Defined.

(** X15.  Zooming is monotone.  A larger scroll offset never gives a
    larger distance, and a larger distance before the scroll never gives a
    smaller distance after it. *)
Theorem scroll_is_monotone
    (g g' : Globals) (xoffset xoffset' yoffset yoffset' : float)
    (Hd : camDistance g <= camDistance g') (Hy : yoffset' <= yoffset) :
  camDistance (scroll_callback g xoffset yoffset)
  <= camDistance (scroll_callback g' xoffset' yoffset').
Proof.
  unfold scroll_callback; cbn [camDistance].
  unfold std.max, std.min. fltb_cases; lra.
Qed.

Lemma scroll_is_monotone_witness :
  camDistance (scroll_callback initialGlobals 0 2)
  <= camDistance (scroll_callback (scroll_callback initialGlobals 0 (-3)) 0 1).
Proof.
  refine (scroll_is_monotone initialGlobals (scroll_callback initialGlobals 0 (-3))
            0 0 2 1 _ _).
  - vm_compute. discriminate.
  - lra.
Defined.

(** * The main loop *)

(** The fields no callback writes. *)
Lemma dispatch_frame (g : Globals) (e : Event) :
  platforms (dispatch g e) = platforms g
  /\ obstacles (dispatch g e) = obstacles g
  /\ objectPos (dispatch g e) = objectPos g
  /\ objectSpeed (dispatch g e) = objectSpeed g
  /\ objectRadius (dispatch g e) = objectRadius g
  /\ mouseSensitivity (dispatch g e) = mouseSensitivity g
  /\ deltaTime (dispatch g e) = deltaTime g.
Proof. destruct e; cbn; repeat split; reflexivity. Qed.

Lemma glfwPollEvents_frame (events : list Event) (g : Globals) :
  platforms (glfwPollEvents g events) = platforms g
  /\ obstacles (glfwPollEvents g events) = obstacles g
  /\ objectPos (glfwPollEvents g events) = objectPos g
  /\ objectSpeed (glfwPollEvents g events) = objectSpeed g
  /\ objectRadius (glfwPollEvents g events) = objectRadius g
  /\ mouseSensitivity (glfwPollEvents g events) = mouseSensitivity g
  /\ deltaTime (glfwPollEvents g events) = deltaTime g.
Proof.
  unfold glfwPollEvents. revert g.
  induction events as [|e rest IH]; intro g; cbn [fold_left].
  - repeat split; reflexivity.
  - destruct (IH (dispatch g e)) as (A & B & C & D & E & F & G).
    destruct (dispatch_frame g e) as (A' & B' & C' & D' & E' & F' & G').
    repeat split; congruence.
Qed.

Lemma dispatch_cameraInRange (g : Globals) (e : Event) :
  cameraInRange g -> cameraInRange (dispatch g e).
Proof.
  intros [Hp Hd]. destruct e as [xpos ypos|xoffset yoffset|w h];
    cbn [dispatch framebuffer_size_callback].
  - split; [apply mouse_callback_pitch_range|exact Hd].
  - split; [exact Hp|apply scroll_callback_distance_range].
  - now split.
Qed.

Lemma glfwPollEvents_cameraInRange (events : list Event) (g : Globals) :
  cameraInRange g -> cameraInRange (glfwPollEvents g events).
Proof.
  unfold glfwPollEvents. revert g.
  induction events as [|e rest IH]; intros g H; cbn [fold_left];
    [exact H|]. apply IH. now apply dispatch_cameraInRange.
Qed.

Section MainLoopFacts.

Variables cos sin : float -> float.
Variable radians : float -> float.
Variable inversesqrt : float -> float.

Lemma main_iteration_keeps (s : LoopState) (f : FrameInput) :
  (cameraInRange (globals s) ->
   cameraInRange (globals (main_iteration cos sin radians inversesqrt s f)))
  /\ platforms (globals (main_iteration cos sin radians inversesqrt s f))
     = platforms (globals s)
  /\ obstacles (globals (main_iteration cos sin radians inversesqrt s f))
     = obstacles (globals s)
  /\ objectSpeed (globals (main_iteration cos sin radians inversesqrt s f))
     = objectSpeed (globals s)
  /\ objectRadius (globals (main_iteration cos sin radians inversesqrt s f))
     = objectRadius (globals s)
  /\ mouseSensitivity (globals (main_iteration cos sin radians inversesqrt s f))
     = mouseSensitivity (globals s).
Proof.
  unfold main_iteration; cbv zeta; cbn [globals].
  set (g1 := processInput _ _ _ _ _ _).
  destruct (glfwPollEvents_frame (events f) g1) as (A & B & _ & D & E & F & _).
  split.
  - intro H. apply glfwPollEvents_cameraInRange. exact H.
  - rewrite A, B, D, E, F. repeat split; reflexivity.
Qed.

(** X16.  What no run of the loop changes.  From a state whose pitch and
    distance are within their clamps, after any number of passes with any
    keys, clock readings and events, the pitch and the distance are within
    their clamps, and the platforms, the obstacles, the speed, the radius
    and the pointer sensitivity are what they were. *)
Theorem main_loop_invariants
    (s : LoopState) (frames : list FrameInput)
    (Hrange : cameraInRange (globals s)) :
  cameraInRange (globals (main_loop cos sin radians inversesqrt s frames))
  /\ platforms (globals (main_loop cos sin radians inversesqrt s frames))
     = platforms (globals s)
  /\ obstacles (globals (main_loop cos sin radians inversesqrt s frames))
     = obstacles (globals s)
  /\ objectSpeed (globals (main_loop cos sin radians inversesqrt s frames))
     = objectSpeed (globals s)
  /\ objectRadius (globals (main_loop cos sin radians inversesqrt s frames))
     = objectRadius (globals s)
  /\ mouseSensitivity (globals (main_loop cos sin radians inversesqrt s frames))
     = mouseSensitivity (globals s).
Proof.
  revert s Hrange.
  induction frames as [|f rest IH]; intros s Hrange; cbn [main_loop].
  - repeat split; try reflexivity; apply Hrange.
  - destruct (windowShouldClose s).
    + repeat split; try reflexivity; apply Hrange.
    + destruct (main_iteration_keeps s f) as (R & A & B & C & D & E).
      destruct (IH _ (R Hrange)) as (R' & A' & B' & C' & D' & E').
      split; [exact R'|]. repeat split; congruence.
Qed.

(** X18.  Closing.  Once the close flag is up no further pass runs.  A
    pass in which the escape key is down, or the window system asks to
    close, still runs in full (the actor is moved by that pass's
    [processInput]) and is the last one. *)
Theorem main_loop_stops_after_close
    (s : LoopState) (f : FrameInput) (rest : list FrameInput)
    (Hopen : windowShouldClose s = false)
    (Hclose : KEY_ESCAPE f = true \/ closeRequested f = true) :
  main_loop cos sin radians inversesqrt s (f :: rest)
  = main_iteration cos sin radians inversesqrt s f
  /\ windowShouldClose (main_iteration cos sin radians inversesqrt s f) = true
  /\ objectPos (globals (main_iteration cos sin radians inversesqrt s f))
     = objectPos (processInput cos sin radians inversesqrt (window f)
                    (set_deltaTime (globals s) (glfwGetTime f - lastFrame s)))
  /\ (forall frames,
        main_loop cos sin radians inversesqrt
          (main_iteration cos sin radians inversesqrt s f) frames
        = main_iteration cos sin radians inversesqrt s f).
Proof.
  assert (C : windowShouldClose (main_iteration cos sin radians inversesqrt s f)
              = true).
  { unfold main_iteration; cbv zeta; cbn [windowShouldClose].
    destruct Hclose as [E|E]; rewrite E; [destruct (closeRequested f)|];
      reflexivity. }
  assert (Stop : forall frames,
             main_loop cos sin radians inversesqrt
               (main_iteration cos sin radians inversesqrt s f) frames
             = main_iteration cos sin radians inversesqrt s f).
  { intros [|f' frames]; cbn [main_loop]; [reflexivity|]. now rewrite C. }
  split; [cbn [main_loop]; rewrite Hopen; apply Stop|].
  split; [exact C|]. split; [|exact Stop].
  unfold main_iteration; cbv zeta; cbn [globals].
  apply glfwPollEvents_frame.
Qed.

End MainLoopFacts.

Lemma main_loop_invariants_witness :
  cameraInRange
    (globals (main_loop HeadingZero.cos HeadingZero.sin HeadingZero.radians
                HeadingZero.inversesqrt initialLoopState
                [mkFrameInput 0.5 false keysWD [CursorPos 400 300; Scroll 0 100] false;
                 mkFrameInput 0.6 false noKeys [CursorPos 400 (-5000)] false])).
Proof.
  refine (proj1 (main_loop_invariants HeadingZero.cos HeadingZero.sin
                   HeadingZero.radians HeadingZero.inversesqrt
                   initialLoopState _ _)).
  unfold cameraInRange; cbn; lra.
Defined.

Lemma main_loop_stops_after_close_witness :
  main_loop HeadingZero.cos HeadingZero.sin HeadingZero.radians
    HeadingZero.inversesqrt initialLoopState
    [mkFrameInput 0.5 true keysWD [] false;
     mkFrameInput 0.6 false keysWD [] false]
  = main_iteration HeadingZero.cos HeadingZero.sin HeadingZero.radians
      HeadingZero.inversesqrt initialLoopState
      (mkFrameInput 0.5 true keysWD [] false).
Proof.
  refine (proj1 (main_loop_stops_after_close HeadingZero.cos HeadingZero.sin
                   HeadingZero.radians HeadingZero.inversesqrt
                   initialLoopState _ _ _ _)).
  - reflexivity.
  - left. reflexivity.
Defined.

(** * Drawing *)

(** Evaluation of the matrix operations on vectors given by components. *)
Ltac mat_compute :=
  cbv [glm4.mulVec glm4.scaleBy glm4.translate glm4.identity glm4.rotate
       glm4.add glm4.scale glm4.x glm4.y glm4.z glm4.w
       glm4.col0 glm4.col1 glm4.col2 glm4.col3
       wallVs_world main_boxModel main_modelMat xyz
       normalize dot add sub scale x y z min max].

Lemma wallVs_world_of_box (b : Box) (a : vec3) :
  glm4.x (wallVs_world (main_boxModel b) a)
  == x (min b) + (x a + 0.5) * (x (max b) - x (min b))
  /\ glm4.y (wallVs_world (main_boxModel b) a)
     == y (min b) + (y a + 0.5) * (y (max b) - y (min b))
  /\ glm4.z (wallVs_world (main_boxModel b) a)
     == z (min b) + (z a + 0.5) * (z (max b) - z (min b))
  /\ glm4.w (wallVs_world (main_boxModel b) a) == 1.
Proof.
  destruct b as [[x0 y0 z0] [x1 y1 z1]], a as [ax ay az].
  mat_compute. repeat split; ring.
Qed.

Lemma world_at_half (lo hi v : float) :
  (v == -0.5 -> lo + (v + 0.5) * (hi - lo) == lo)
  /\ (v == 0.5 -> lo + (v + 0.5) * (hi - lo) == hi).
Proof. split; intro E; rewrite E; ring. Qed.

(** Every coordinate of every vertex of [cubeVertices] is [-0.5] or [0.5]. *)
Lemma cubeVertices_are_half :
  Forall (fun a => (x a == -0.5 \/ x a == 0.5) /\ (y a == -0.5 \/ y a == 0.5)
                   /\ (z a == -0.5 \/ z a == 0.5)) cubeVertices.
Proof.
  unfold cubeVertices.
  repeat (apply Forall_cons;
          [cbn [x y z];
           repeat split; first [left; reflexivity | right; reflexivity]|]).
  apply Forall_nil.
Qed.

Lemma half_vertex_is_corner (b : Box) (a : vec3) :
  (x a == -0.5 \/ x a == 0.5) -> (y a == -0.5 \/ y a == 0.5) ->
  (z a == -0.5 \/ z a == 0.5) ->
  exists hx hy hz,
    vec3_eq (xyz (wallVs_world (main_boxModel b) a)) (boxCorner b hx hy hz).
Proof.
  intros Hx Hy Hz.
  destruct (wallVs_world_of_box b a) as (Ex & Ey & Ez & _).
  assert (Cx : exists hx : bool, glm4.x (wallVs_world (main_boxModel b) a)
                          == if hx then x (max b) else x (min b)).
  { destruct Hx as [Hx|Hx]; [exists false|exists true]; rewrite Ex;
      now apply world_at_half. }
  assert (Cy : exists hy : bool, glm4.y (wallVs_world (main_boxModel b) a)
                          == if hy then y (max b) else y (min b)).
  { destruct Hy as [Hy|Hy]; [exists false|exists true]; rewrite Ey;
      now apply world_at_half. }
  assert (Cz : exists hz : bool, glm4.z (wallVs_world (main_boxModel b) a)
                          == if hz then z (max b) else z (min b)).
  { destruct Hz as [Hz|Hz]; [exists false|exists true]; rewrite Ez;
      now apply world_at_half. }
  destruct Cx as (hx & Cx), Cy as (hy & Cy), Cz as (hz & Cz).
  exists hx, hy, hz. unfold vec3_eq, xyz, boxCorner; cbn [x y z].
  now repeat split.
Qed.

(** X19.  What is drawn for a box is the box that collides.  The model
    matrix of the drawing loops sends the vertex [a] of the unit cube to
    [min + (a + 0.5) * (max - min)] on every axis; every vertex of
    [cubeVertices] lands on a corner of the box, every corner of the box is
    reached, and no point of the unit cube leaves a well-formed box. *)
Theorem drawn_box_is_the_box (b : Box) :
  (forall a,
     vec3_eq (xyz (wallVs_world (main_boxModel b) a))
       (mkvec3 (x (min b) + (x a + 0.5) * (x (max b) - x (min b)))
               (y (min b) + (y a + 0.5) * (y (max b) - y (min b)))
               (z (min b) + (z a + 0.5) * (z (max b) - z (min b))))
     /\ glm4.w (wallVs_world (main_boxModel b) a) == 1)
  /\ (forall a, In a cubeVertices ->
        exists hx hy hz,
          vec3_eq (xyz (wallVs_world (main_boxModel b) a)) (boxCorner b hx hy hz))
  /\ (forall hx hy hz,
        exists a, In a cubeVertices
          /\ vec3_eq (xyz (wallVs_world (main_boxModel b) a)) (boxCorner b hx hy hz))
  /\ (wellFormedBox b ->
      forall a, -0.5 <= x a <= 0.5 -> -0.5 <= y a <= 0.5 -> -0.5 <= z a <= 0.5 ->
        inBox (xyz (wallVs_world (main_boxModel b) a)) b).
Proof.
  split; [|split; [|split]].
  - intro a. destruct (wallVs_world_of_box b a) as (Ex & Ey & Ez & Ew).
    split; [|exact Ew]. unfold vec3_eq, xyz; cbn [x y z]. now repeat split.
  - intros a Ha.
    pose proof (proj1 (Forall_forall _ _) cubeVertices_are_half a Ha)
      as (Hx & Hy & Hz).
    now apply half_vertex_is_corner.
  - intros hx hy hz.
    exists (mkvec3 (if hx then 0.5 else -0.5) (if hy then 0.5 else -0.5)
                   (if hz then 0.5 else -0.5)).
    split.
    + destruct hx, hy, hz; unfold cubeVertices;
        repeat first [left; reflexivity | right].
    + destruct (wallVs_world_of_box b
                  (mkvec3 (if hx then 0.5 else -0.5) (if hy then 0.5 else -0.5)
                          (if hz then 0.5 else -0.5))) as (Ex & Ey & Ez & _).
      unfold vec3_eq, xyz, boxCorner; cbn [x y z] in *.
      rewrite Ex, Ey, Ez.
      destruct hx, hy, hz; repeat split; ring.
  - intros (Wx & Wy & Wz) a Hx Hy Hz.
    destruct (wallVs_world_of_box b a) as (Ex & Ey & Ez & _).
    unfold inBox, xyz; cbn [x y z]. rewrite Ex, Ey, Ez.
    assert (Bx : 0 <= (x a + 0.5) * (x (max b) - x (min b)))
      by (apply Qmult_le_0_compat; lra).
    assert (Bx' : 0 <= (0.5 - x a) * (x (max b) - x (min b)))
      by (apply Qmult_le_0_compat; lra).
    assert (By : 0 <= (y a + 0.5) * (y (max b) - y (min b)))
      by (apply Qmult_le_0_compat; lra).
    assert (By' : 0 <= (0.5 - y a) * (y (max b) - y (min b)))
      by (apply Qmult_le_0_compat; lra).
    assert (Bz : 0 <= (z a + 0.5) * (z (max b) - z (min b)))
      by (apply Qmult_le_0_compat; lra).
    assert (Bz' : 0 <= (0.5 - z a) * (z (max b) - z (min b)))
      by (apply Qmult_le_0_compat; lra).
    repeat split; lra.
Qed.

Lemma main_drawPlatforms_spec (cubeVAO bound : Z) (platforms : list Box) :
  main_drawPlatforms cubeVAO bound platforms
  = (map (fun p => mkDrawCall cubeVAO (main_boxModel p) (mkvec3 0.9 0.9 0.9) 36)
         platforms,
     match platforms with [] => bound | _ :: _ => cubeVAO end).
Proof.
  revert bound. induction platforms as [|p rest IH]; intro bound;
    cbn [main_drawPlatforms map]; [reflexivity|].
  rewrite IH. destruct rest; reflexivity.
Qed.

(** X20.  The draw calls of the two box loops.  There is one call of 36
    vertices for every platform and then for every obstacle, in order, each
    with the model matrix of its box.  With at least one platform every
    call is made with [cubeVAO] bound.  With no platform the obstacles are
    drawn with whatever vertex array was bound before the loops: the
    obstacle loop binds none itself. *)
Theorem box_draw_calls (cubeVAO bound : Z) (g : Globals) :
  map drawModel (main_drawBoxes cubeVAO bound g)
  = map main_boxModel (platforms g ++ obstacles g)
  /\ Forall (fun c => drawCount c = 36%Z) (main_drawBoxes cubeVAO bound g)
  /\ (platforms g <> [] ->
      Forall (fun c => vertexArray c = cubeVAO) (main_drawBoxes cubeVAO bound g))
  /\ (platforms g = [] ->
      main_drawBoxes cubeVAO bound g
      = map (fun o => mkDrawCall bound (main_boxModel o) (mkvec3 1.0 1.0 1.0) 36)
            (obstacles g)).
Proof.
  unfold main_drawBoxes. rewrite main_drawPlatforms_spec.
  unfold main_drawObstacles.
  split; [|split; [|split]].
  - rewrite !map_app, !map_map. reflexivity.
  - apply Forall_app. split; apply Forall_forall; intros c Hc;
      apply in_map_iff in Hc; destruct Hc as (q & <- & _); reflexivity.
  - intro Hne. destruct (platforms g) as [|p rest]; [congruence|].
    apply Forall_app. split; apply Forall_forall; intros c Hc;
      apply in_map_iff in Hc; destruct Hc as (q & <- & _); reflexivity.
  - intros ->. reflexivity.
Qed.

Lemma Qfloor_unique (v : Q) (n : Z) :
  inject_Z n <= v -> v < inject_Z (n + 1) -> Qfloor v = n.
Proof.
  intros Hlo Hhi. apply Z.le_antisymm.
  - apply Z.lt_succ_r. apply Z.nle_gt. intro H.
    rewrite Zle_Qle in H. pose proof (Qfloor_le v) as F.
    change (Z.succ n) with (n + 1)%Z in H. lra.
  - rewrite <- (Qfloor_Z n). now apply Qfloor_resp_le.
Qed.

Lemma fract_range (v : float) : 0 <= fract v < 1.
Proof.
  unfold fract. pose proof (Qfloor_le v) as L. pose proof (Qlt_floor v) as U.
  rewrite inject_Z_plus in U. change (inject_Z 1) with 1 in U. lra.
Qed.

#[export] Instance fract_compat : Proper (Qeq ==> Qeq) fract.
Proof.
  intros a b E. unfold fract. now rewrite (Qfloor_comp _ _ E), E.
Qed.

Lemma fract_plus_one (v : float) : fract (v + 1) == fract v.
Proof.
  unfold fract.
  assert (E : Qfloor (v + 1) = (Qfloor v + 1)%Z).
  { apply Qfloor_unique.
    - rewrite inject_Z_plus. change (inject_Z 1) with 1.
      pose proof (Qfloor_le v). lra.
    - rewrite !inject_Z_plus. change (inject_Z 1) with 1.
      pose proof (Qlt_floor v) as U. rewrite inject_Z_plus in U.
      change (inject_Z 1) with 1 in U. lra. }
  rewrite E, inject_Z_plus. change (inject_Z 1) with 1. ring.
Qed.

(** X21.  The texture coordinates of the wall shader.  Both lie in
    [[0, 1)]; they are decided by the world [x] and [z] of the vertex
    alone, so the height of a vertex has no part in them; and with the
    [uvScale] of [main], 0.25, they repeat every 4 world units. *)
Theorem wall_texture_coordinates
    (model model' : glm4.mat4) (uvScale : float) (a a' : vec3) :
  (0 <= fst (wallVs_TexCoord model uvScale a) < 1
   /\ 0 <= snd (wallVs_TexCoord model uvScale a) < 1)
  /\ (glm4.x (wallVs_world model' a') == glm4.x (wallVs_world model a) ->
      glm4.z (wallVs_world model' a') == glm4.z (wallVs_world model a) ->
      fst (wallVs_TexCoord model' uvScale a') == fst (wallVs_TexCoord model uvScale a)
      /\ snd (wallVs_TexCoord model' uvScale a') == snd (wallVs_TexCoord model uvScale a))
  /\ (glm4.x (wallVs_world model' a') == glm4.x (wallVs_world model a) + 4 ->
      fst (wallVs_TexCoord model' 0.25 a') == fst (wallVs_TexCoord model 0.25 a))
  /\ (glm4.z (wallVs_world model' a') == glm4.z (wallVs_world model a) + 4 ->
      snd (wallVs_TexCoord model' 0.25 a') == snd (wallVs_TexCoord model 0.25 a)).
Proof.
  unfold wallVs_TexCoord; cbv zeta; cbn [fst snd].
  split; [split; apply fract_range|].
  split; [intros Ex Ez; now rewrite Ex, Ez|].
  split; intro E; rewrite E.
  - rewrite <- (fract_plus_one (glm4.x (wallVs_world model a) * 0.25)).
    apply fract_compat. ring.
  - rewrite <- (fract_plus_one (glm4.z (wallVs_world model a) * 0.25)).
    apply fract_compat. ring.
Qed.

Section ModelMatrixFacts.

Variables cos sin : float -> float.
Variable radians : float -> float.
Variable inversesqrt : float -> float.

(** X22.  The character is drawn where it stands.  Whatever the yaw, its
    model matrix sends the origin of the model to [objectPos]; and when
    [inversesqrt] is exact on the unit axis, the turn about the vertical
    keeps every height: a model point at height [h] is drawn at height
    [objectPos.y + h]. *)
Theorem model_is_drawn_at_objectPos (g : Globals) :
  vec3_eq
    (xyz (glm4.mulVec (main_modelMat cos sin radians inversesqrt g)
            (glm4.mkvec4 0 0 0 1)))
    (objectPos g)
  /\ glm4.w (glm4.mulVec (main_modelMat cos sin radians inversesqrt g)
               (glm4.mkvec4 0 0 0 1)) == 1
  /\ (inversesqrt (dot (mkvec3 0.0 1.0 0.0) (mkvec3 0.0 1.0 0.0)) == 1 ->
      forall p : vec3,
        glm4.y (glm4.mulVec (main_modelMat cos sin radians inversesqrt g)
                  (glm4.mkvec4 (x p) (y p) (z p) 1))
        == y (objectPos g) + y p).
Proof.
  unfold vec3_eq.
  remember (objectPos g) as pos eqn:Epos. destruct pos as [px py pz].
  unfold main_modelMat; rewrite <- Epos.
  split; [|split].
  - mat_compute. repeat split; ring.
  - mat_compute. ring.
  - intros Hunit [qx qy qz]. cbv [dot x y z] in Hunit.
    mat_compute. rewrite Hunit. ring.
Qed.

End ModelMatrixFacts.

Lemma model_is_drawn_at_objectPos_witness :
  glm4.y (glm4.mulVec (main_modelMat HeadingZero.cos HeadingZero.sin
                         HeadingZero.radians HeadingZero.inversesqrt cornerGlobals)
            (glm4.mkvec4 0 1.5 0 1))
  == y (objectPos cornerGlobals) + 1.5.
Proof.
  refine (proj2 (proj2 (model_is_drawn_at_objectPos HeadingZero.cos HeadingZero.sin
                          HeadingZero.radians HeadingZero.inversesqrt cornerGlobals))
                _ (mkvec3 0 1.5 0)).
  reflexivity.
Defined.

(** * A frame without time *)

Lemma processInput_slide_near (obs : list Box) (r : float) (cur des : vec3) :
  vec3_eq des cur -> vec3_eq (processInput_slide obs r cur des) cur.
Proof.
  intros (Ex & Ey & Ez). slide_branches; unfold vec3_eq; cbn [x y z set_x set_y set_z];
    repeat split; try reflexivity; assumption.
Qed.

Section PausedFrame.

Variables cos sin : float -> float.
Variable radians : float -> float.
Variable inversesqrt : float -> float.

(** X23.  No time, no movement.  When the speed times the frame time is
    zero (two passes reading the same clock value, or a speed of zero),
    then whatever keys are down, and whether or not the actor is free of
    the obstacles, the desired position and the position after the
    collision handling are the current position. *)
Theorem zero_velocity_keeps_position
    (window : Window) (g : Globals)
    (Hzero : objectSpeed g * deltaTime g == 0) :
  vec3_eq (processInput_desired cos sin radians inversesqrt window g) (objectPos g)
  /\ vec3_eq (processInput_horizontal cos sin radians inversesqrt window g)
       (objectPos g).
Proof.
  assert (D : vec3_eq (processInput_desired cos sin radians inversesqrt window g)
                (objectPos g)).
  { unfold processInput_desired; cbv zeta.
    set (f := headingForward _ _ _ _). set (rt := normalize _ _).
    destruct (KEY_W window), (KEY_S window), (KEY_A window), (KEY_D window);
      unfold vec3_eq, add, sub, scale; cbn [x y z];
      rewrite ?Hzero; repeat split; ring. }
  split; [exact D|].
  unfold processInput_horizontal. now apply processInput_slide_near.
Qed.

End PausedFrame.

Lemma zero_velocity_keeps_position_witness :
  vec3_eq
    (processInput_horizontal HeadingZero.cos HeadingZero.sin HeadingZero.radians
       HeadingZero.inversesqrt keysWD initialGlobals)
    (objectPos initialGlobals).
Proof.
  refine (proj2 (zero_velocity_keeps_position HeadingZero.cos HeadingZero.sin
                   HeadingZero.radians HeadingZero.inversesqrt keysWD
                   initialGlobals _)).
  reflexivity.
Defined.

(** * The texture loaders *)

Module GLFacts.

Import String GL.

Lemma uploads_app (l l' : list Call) :
  uploads (l ++ l') = (uploads l ++ uploads l')%list.
Proof.
  induction l as [|c l IH]; [reflexivity|].
  destruct c; cbn; rewrite ?IH; reflexivity.
Qed.

Lemma freed_app (l l' : list Call) :
  freed (l ++ l') = (freed l ++ freed l')%list.
Proof.
  induction l as [|c l IH]; [reflexivity|].
  destruct c as [[d|]| | | | | | |]; cbn; rewrite ?IH; reflexivity.
Qed.

Lemma messages_app (l l' : list Call) :
  messages (l ++ l') = (messages l ++ messages l')%list.
Proof.
  induction l as [|c l IH]; [reflexivity|].
  destruct c; cbn; rewrite ?IH; reflexivity.
Qed.

(** X24.  What [loadTexture] does with its image.  Given that
    [glGenTextures] hands out a name other than 0, the result is 0 exactly
    when the image does not load, and then no OpenGL call is made.  When
    the image loads it is uploaded once and freed once, and the format of
    the upload has as many components as the image exactly when the image
    has 1, 3 or 4 of them: any other image, a two-component one included,
    is uploaded as [GL_RGB]. *)
Theorem loadTexture_outcomes
    (stbi_load : string -> option Image) (tex : Z) (path : string)
    (Hname : tex <> 0%Z) :
  (snd (loadTexture stbi_load tex path) = 0%Z <-> stbi_load path = None)
  /\ (stbi_load path = None ->
      loadTexture stbi_load tex path
      = ([cerr ("Failed to load texture: " ++ path)], 0%Z))
  /\ (forall data, stbi_load path = Some data ->
        snd (loadTexture stbi_load tex path) = tex
        /\ freed (fst (loadTexture stbi_load tex path)) = [data]
        /\ messages (fst (loadTexture stbi_load tex path)) = []
        /\ exists format,
             uploads (fst (loadTexture stbi_load tex path))
             = [(GL_TEXTURE_2D, format, data)]
             /\ (componentsOf format = Some (nrComponents data)
                 <-> nrComponents data = 1 \/ nrComponents data = 3
                     \/ nrComponents data = 4)%Z
             /\ (nrComponents data <> 1 -> nrComponents data <> 4 ->
                 format = GL_RGB)%Z).
Proof.
  unfold loadTexture.
  destruct (stbi_load path) as [data|] eqn:E.
  - split; [cbn [snd]; split; [intro H; destruct (Hname H)|discriminate]|].
    split; [discriminate|].
    intros d [= <-]. cbn [fst snd].
    split; [reflexivity|]. split; [reflexivity|]. split; [reflexivity|].
    cbn [uploads].
    destruct (Z.eqb_spec (nrComponents data) 1) as [H1|H1].
    { exists GL_RED. split; [reflexivity|]. split.
      - cbn. rewrite H1. tauto.
      - intro N. destruct (N H1). }
    destruct (Z.eqb_spec (nrComponents data) 3) as [H3|H3].
    { exists GL_RGB. split; [reflexivity|]. split.
      - cbn. rewrite H3. tauto.
      - reflexivity. }
    destruct (Z.eqb_spec (nrComponents data) 4) as [H4|H4].
    { exists GL_RGBA. split; [reflexivity|]. split.
      - cbn. rewrite H4. tauto.
      - intros _ N. destruct (N H4). }
    exists GL_RGB. split; [reflexivity|]. split.
    + cbn. split.
      * intros [= H]. destruct (H3 (eq_sym H)).
      * intros [H|[H|H]]; contradiction.
    + reflexivity.
  - split; [cbn [snd]; tauto|]. split; [reflexivity|]. discriminate.
Qed.

Lemma loadCubemap_faces_spec (stbi_load : string -> option Image)
    (faces : list string) (i : nat) :
  uploads (loadCubemap_faces stbi_load i faces)
  = map (fun f => (GL_TEXTURE_CUBE_MAP_POSITIVE_X_plus (fst f), GL_RGB, snd f))
        (loadedFaces stbi_load i faces)
  /\ freed (loadCubemap_faces stbi_load i faces)
     = map snd (loadedFaces stbi_load i faces)
  /\ messages (loadCubemap_faces stbi_load i faces)
     = map (fun face => ("Cubemap texture failed to load at path: " ++ face)%string)
           (failedFaces stbi_load faces).
Proof.
  revert i. induction faces as [|face rest IH]; intro i.
  - repeat split; reflexivity.
  - destruct (IH (S i)) as (U & F & M).
    cbn [loadCubemap_faces loadedFaces failedFaces filter].
    rewrite uploads_app, freed_app, messages_app, U, F.
    unfold failedFaces in M. rewrite M.
    unfold loadCubemap_face.
    destruct (stbi_load face) as [data|]; repeat split; reflexivity.
Qed.

Lemma loadedFaces_length (stbi_load : string -> option Image)
    (faces : list string) (i : nat) :
  (List.length (loadedFaces stbi_load i faces)
   + List.length (failedFaces stbi_load faces))%nat
  = List.length faces.
Proof.
  revert i. induction faces as [|face rest IH]; intro i; [reflexivity|].
  cbn [loadedFaces failedFaces filter]. specialize (IH (S i)).
  unfold failedFaces in IH.
  destruct (stbi_load face); cbn [List.length]; lia.
Qed.

Lemma loadedFaces_In (stbi_load : string -> option Image)
    (faces : list string) (i k : nat) (data : Image) :
  In (k, data) (loadedFaces stbi_load i faces)
  <-> exists face, (i <= k)%nat /\ nth_error faces (k - i) = Some face
                   /\ stbi_load face = Some data.
Proof.
  revert i. induction faces as [|face rest IH]; intro i.
  - cbn. split; [tauto|]. intros (f & _ & H & _).
    destruct (k - i)%nat; discriminate.
  - assert (R : In (k, data) (loadedFaces stbi_load (S i) rest)
                <-> exists f, (i <= k)%nat /\ (k <> i)
                      /\ nth_error (face :: rest) (k - i) = Some f
                      /\ stbi_load f = Some data).
    { rewrite IH. split.
      - intros (f & Hle & Hn & Hl). exists f.
        split; [lia|]. split; [lia|]. split; [|exact Hl].
        replace (k - i)%nat with (S (k - S i)) by lia. exact Hn.
      - intros (f & Hle & Hne & Hn & Hl). exists f.
        split; [lia|]. split; [|exact Hl].
        replace (k - i)%nat with (S (k - S i)) in Hn by lia. exact Hn. }
    cbn [loadedFaces].
    destruct (stbi_load face) as [d|] eqn:E.
    + cbn [In]. rewrite R. split.
      * intros [H|(f & Hle & _ & Hn & Hl)].
        -- injection H as <- <-. exists face. rewrite Nat.sub_diag.
           split; [lia|]. split; [reflexivity|exact E].
        -- exists f. tauto.
      * intros (f & Hle & Hn & Hl).
        destruct (Nat.eq_dec k i) as [->|Hne].
        -- left. rewrite Nat.sub_diag in Hn. cbn in Hn. congruence.
        -- right. exists f. tauto.
    + rewrite R. split.
      * intros (f & Hle & _ & Hn & Hl). exists f. tauto.
      * intros (f & Hle & Hn & Hl). exists f.
        destruct (Nat.eq_dec k i) as [->|Hne]; [|tauto].
        rewrite Nat.sub_diag in Hn. cbn in Hn. congruence.
Qed.

(** X25.  What [loadCubemap] does with its faces.  It returns the texture
    name whether or not the faces load.  Every face that loads is
    uploaded once, as [GL_RGB] whatever its number of components, to the
    target [GL_TEXTURE_CUBE_MAP_POSITIVE_X + i] of its index [i] in the
    list, with no bound on [i], and is freed once; every face that does
    not load costs one line on [std::cout] and nothing else; the uploads
    and the lines together are as many as the faces. *)
Theorem loadCubemap_outcomes
    (stbi_load : string -> option Image) (textureID : Z) (faces : list string) :
  snd (loadCubemap stbi_load textureID faces) = textureID
  /\ uploads (fst (loadCubemap stbi_load textureID faces))
     = map (fun f => (GL_TEXTURE_CUBE_MAP_POSITIVE_X_plus (fst f), GL_RGB, snd f))
           (loadedFaces stbi_load 0 faces)
  /\ (forall i data,
        In (i, data) (loadedFaces stbi_load 0 faces)
        <-> exists face, nth_error faces i = Some face
                         /\ stbi_load face = Some data)
  /\ freed (fst (loadCubemap stbi_load textureID faces))
     = map snd (loadedFaces stbi_load 0 faces)
  /\ messages (fst (loadCubemap stbi_load textureID faces))
     = map (fun face => ("Cubemap texture failed to load at path: " ++ face)%string)
           (failedFaces stbi_load faces)
  /\ (List.length (uploads (fst (loadCubemap stbi_load textureID faces)))
      + List.length (messages (fst (loadCubemap stbi_load textureID faces))))%nat
     = List.length faces.
Proof.
  destruct (loadCubemap_faces_spec stbi_load faces 0) as (U & F & M).
  assert (EU : uploads (fst (loadCubemap stbi_load textureID faces))
               = uploads (loadCubemap_faces stbi_load 0 faces)).
  { unfold loadCubemap; cbn [fst]. rewrite !uploads_app. cbn.
    now rewrite app_nil_r. }
  assert (EF : freed (fst (loadCubemap stbi_load textureID faces))
               = freed (loadCubemap_faces stbi_load 0 faces)).
  { unfold loadCubemap; cbn [fst]. rewrite !freed_app. cbn.
    now rewrite app_nil_r. }
  assert (EM : messages (fst (loadCubemap stbi_load textureID faces))
               = messages (loadCubemap_faces stbi_load 0 faces)).
  { unfold loadCubemap; cbn [fst]. rewrite !messages_app. cbn.
    now rewrite app_nil_r. }
  split; [reflexivity|]. split; [now rewrite EU|]. split.
  { intros i data. rewrite loadedFaces_In. rewrite Nat.sub_0_r.
    split; intros (f & H); exists f; [tauto|].
    split; [lia|tauto]. }
  split; [now rewrite EF|]. split; [now rewrite EM|].
  rewrite EU, EM, U, M, !length_map. apply loadedFaces_length.
Qed.

End GLFacts.

Lemma loadTexture_outcomes_witness :
  snd (GL.loadTexture (fun _ => Some (GL.mkImage 4 4 2)) 7 String.EmptyString)
  = 7%Z.
Proof.
  refine (proj1 (proj2 (proj2 (GLFacts.loadTexture_outcomes
                                 (fun _ => Some (GL.mkImage 4 4 2)) 7
                                 String.EmptyString _))
                   (GL.mkImage 4 4 2) eq_refl)).
  discriminate.
Defined.

(** * What the collision handling does not see *)

Lemma collidesWithAnyObstacle_single (b : Box) (c : vec3) (r : float) :
  collidesWithAnyObstacle [b] c r = sphereIntersectsAABB c r b.
Proof. cbn. now destruct (sphereIntersectsAABB c r b). Qed.

(** X26.  Only the end of a step is tested, not the way.  For every
    well-formed box and every positive radius there are a free start on
    one side of the box and a desired position on the other side, one
    radius off each face, with a point of the segment between them inside
    the box, and the collision handling accepts the step in full. *)
Theorem a_long_step_passes_through_a_box
    (b : Box) (r : float) (Hwf : wellFormedBox b) (Hr : 0 < r) :
  collidesWithAnyObstacle [b]
    (mkvec3 (x (min b) - r) (y (min b)) (z (min b))) r = false
  /\ collidesWithAnyObstacle [b]
       (mkvec3 (x (min b)) (y (min b)) (z (min b))) r = true
  /\ x (min b) - r <= x (min b) <= x (max b) + r
  /\ processInput_slide [b] r
       (mkvec3 (x (min b) - r) (y (min b)) (z (min b)))
       (mkvec3 (x (max b) + r) (y (min b)) (z (min b)))
     = mkvec3 (x (max b) + r) (y (min b)) (z (min b)).
Proof.
  pose proof Hwf as (Wx & Wy & Wz).
  assert (Free : forall px, px + r <= x (min b) \/ x (max b) + r <= px ->
            collidesWithAnyObstacle [b] (mkvec3 px (y (min b)) (z (min b))) r
            = false).
  { intros px H. rewrite collidesWithAnyObstacle_single.
    apply (sphereIntersectsAABB_level_x _ r b Hr Hwf); cbn [x y z];
      [lra|lra|exact H]. }
  split; [apply Free; left; lra|].
  split.
  { rewrite collidesWithAnyObstacle_single. apply sphereIntersectsAABB_inside.
    - unfold inBox; cbn [x y z]. lra.
    - lra. }
  split; [lra|].
  rewrite processInput_slide_cases. unfold set_y; cbn [x y z].
  rewrite Free by (right; lra). reflexivity.
Qed.

Lemma a_long_step_passes_through_a_box_witness :
  processInput_slide [westWall] 0.5
    (mkvec3 (x (min westWall) - 0.5) (y (min westWall)) (z (min westWall)))
    (mkvec3 (x (max westWall) + 0.5) (y (min westWall)) (z (min westWall)))
  = mkvec3 (x (max westWall) + 0.5) (y (min westWall)) (z (min westWall)).
Proof.
  refine (proj2 (proj2 (proj2 (a_long_step_passes_through_a_box westWall 0.5 _ _)))).
  - unfold wellFormedBox; cbn; lra.
  - lra.
Defined.

Lemma clampInto_above (v lo hi : float) :
  lo <= hi -> hi < v -> clampInto v lo hi = hi.
Proof.
  intros Hle Hlt. unfold clampInto.
  destruct (fltb_spec v lo); [lra|].
  destruct (fltb_spec hi v); [reflexivity|contradiction].
Qed.

(** X27.  The snap is outside the guarantee of the collision handling.
    An actor hovering one radius above a well-formed obstacle, over its
    footprint, is free of it; when the highest platform under the actor
    has its top within the height range of the obstacle, the snap puts the
    actor inside the obstacle. *)
Theorem snap_can_sink_into_an_obstacle
    (platforms : list Box) (b : Box) (r h px pz : float)
    (Hwf : wellFormedBox b) (Hr : 0 < r)
    (Hx : x (min b) <= px <= x (max b)) (Hz : z (min b) <= pz <= z (max b))
    (Hsupport : highestPlatformTopAtXZ platforms px pz = Some h)
    (Hh : y (min b) <= h <= y (max b)) :
  collidesWithAnyObstacle [b] (mkvec3 px (y (max b) + r) pz) r = false
  /\ processInput_snap platforms (mkvec3 px (y (max b) + r) pz) = mkvec3 px h pz
  /\ collidesWithAnyObstacle [b]
       (processInput_snap platforms (mkvec3 px (y (max b) + r) pz)) r = true.
Proof.
  pose proof Hwf as (Wx & Wy & Wz).
  assert (S : processInput_snap platforms (mkvec3 px (y (max b) + r) pz)
              = mkvec3 px h pz).
  { unfold processInput_snap; cbn [x y z]. rewrite Hsupport. reflexivity. }
  split; [|split; [exact S|]].
  - rewrite collidesWithAnyObstacle_single.
    apply (sphereIntersectsAABB_one_axis _ r b r Hr Hwf); [|lra|lra].
    unfold squaredDistance, closestPointOfBox; cbn [x y z].
    rewrite (clampInto_inside _ _ _ Hx), (clampInto_inside _ _ _ Hz).
    rewrite (clampInto_above (y (max b) + r) _ _ Wy) by lra.
    ring.
  - rewrite S, collidesWithAnyObstacle_single.
    apply sphereIntersectsAABB_inside; [|lra].
    unfold inBox; cbn [x y z]. lra.
Qed.

Lemma snap_can_sink_into_an_obstacle_witness :
  collidesWithAnyObstacle
    [mkBox (mkvec3 (-10.0) 0.0 7.5) (mkvec3 (-0.5) 2.2 8.5)]
    (processInput_snap mazePlatforms (mkvec3 (-8) (2.2 + 0.5) 8)) 0.5 = true.
Proof.
  refine (proj2 (proj2 (snap_can_sink_into_an_obstacle mazePlatforms
            (mkBox (mkvec3 (-10.0) 0.0 7.5) (mkvec3 (-0.5) 2.2 8.5))
            0.5 1.6 (-8) 8 _ _ _ _ _ _))).
  - unfold wellFormedBox; cbn; lra.
  - lra.
  - cbn; lra.
  - cbn; lra.
  - vm_compute. reflexivity.
  - cbn; lra.
Defined.

(** * Geometry of the heading *)

(** Replace the left-hand side by a term equal to it as a polynomial. *)
Tactic Notation "via" constr(t) :=
  match goal with
  | |- ?L == _ =>
      let E := fresh "E" in
      assert (E : L == t) by ring; rewrite E; clear E
  end.

Section HeadingFacts.

Variables cos sin : float -> float.
Variable radians : float -> float.
Variable inversesqrt : float -> float.

Lemma heading_right_perpendicular (yawRad : float) :
  y (headingForward cos sin inversesqrt yawRad) == 0
  /\ y (normalize inversesqrt
          (cross (headingForward cos sin inversesqrt yawRad) (mkvec3 0 1 0))) == 0
  /\ dot (headingForward cos sin inversesqrt yawRad)
         (normalize inversesqrt
            (cross (headingForward cos sin inversesqrt yawRad) (mkvec3 0 1 0)))
     == 0.
Proof.
  unfold headingForward.
  set (k := inversesqrt (dot (mkvec3 (cos yawRad) 0 (sin yawRad))
                             (mkvec3 (cos yawRad) 0 (sin yawRad)))).
  change (normalize inversesqrt (mkvec3 (cos yawRad) 0 (sin yawRad)))
    with (scale (mkvec3 (cos yawRad) 0 (sin yawRad)) k).
  unfold normalize.
  set (k' := inversesqrt _).
  unfold dot, cross, scale; cbn [x y z].
  repeat split; ring.
Qed.

(** X28.  The camera rides a cylinder, not a sphere.  When the heading
    vector has unit length, the camera is at horizontal distance
    [camDistance] from the actor whatever the pitch, at height
    [camDistance * sin pitch] above it, so its squared distance to the
    actor is [camDistance^2 * (1 + sin^2 pitch)]. *)
Theorem camera_rides_a_cylinder
    (g : Globals)
    (Hunit : dot (headingForward cos sin inversesqrt (radians (camYaw g)))
                 (headingForward cos sin inversesqrt (radians (camYaw g))) == 1) :
  (x (main_camPos cos sin radians inversesqrt g) - x (objectPos g))
  * (x (main_camPos cos sin radians inversesqrt g) - x (objectPos g))
  + (z (main_camPos cos sin radians inversesqrt g) - z (objectPos g))
    * (z (main_camPos cos sin radians inversesqrt g) - z (objectPos g))
  == camDistance g * camDistance g
  /\ y (main_camPos cos sin radians inversesqrt g) - y (objectPos g)
     == camDistance g * sin (radians (camPitch g))
  /\ squaredDistance (main_camPos cos sin radians inversesqrt g) (objectPos g)
     == camDistance g * camDistance g
        * (1 + sin (radians (camPitch g)) * sin (radians (camPitch g))).
Proof.
  destruct (heading_right_perpendicular (radians (camYaw g))) as (Fy & _ & _).
  unfold main_camPos, squaredDistance; cbv zeta.
  set (f := headingForward cos sin inversesqrt (radians (camYaw g))) in *.
  set (d := camDistance g : Q). set (sp := sin (radians (camPitch g)) : Q).
  unfold dot in Hunit. unfold add, sub, scale; cbn [x y z].
  assert (H2 : x f * x f + z f * z f == 1) by (rewrite Fy in Hunit; lra).
  split; [|split].
  - via (d * d * (x f * x f + z f * z f)). rewrite H2. ring.
  - rewrite Fy. ring.
  - rewrite Fy.
    via (d * d * (x f * x f + z f * z f) + d * d * sp * sp).
    rewrite H2. ring.
Qed.

(** X29.  Walking and strafing.  The heading and the strafe direction are
    horizontal and perpendicular to each other, so no key changes the
    desired height.  When both have unit length, one key moves the desired
    position by the frame's step [objectSpeed * deltaTime], and two keys
    at right angles move it by that step along both directions at once:
    the squared length of the move doubles, the diagonal is not
    normalised. *)
Theorem diagonal_movement_is_not_normalised (g : Globals) :
  (forall window,
     y (processInput_desired cos sin radians inversesqrt window g)
     == y (objectPos g))
  /\ dot (headingForward cos sin inversesqrt (radians (camYaw g)))
         (normalize inversesqrt
            (cross (headingForward cos sin inversesqrt (radians (camYaw g)))
                   (mkvec3 0 1 0)))
     == 0
  /\ (dot (headingForward cos sin inversesqrt (radians (camYaw g)))
          (headingForward cos sin inversesqrt (radians (camYaw g))) == 1 ->
      dot (normalize inversesqrt
             (cross (headingForward cos sin inversesqrt (radians (camYaw g)))
                    (mkvec3 0 1 0)))
          (normalize inversesqrt
             (cross (headingForward cos sin inversesqrt (radians (camYaw g)))
                    (mkvec3 0 1 0))) == 1 ->
      squaredDistance
        (processInput_desired cos sin radians inversesqrt
           (mkWindow true false false false) g) (objectPos g)
      == (objectSpeed g * deltaTime g) * (objectSpeed g * deltaTime g)
      /\ squaredDistance
           (processInput_desired cos sin radians inversesqrt
              (mkWindow true false false true) g) (objectPos g)
         == 2 * ((objectSpeed g * deltaTime g) * (objectSpeed g * deltaTime g))).
Proof.
  destruct (heading_right_perpendicular (radians (camYaw g))) as (Fy & Ry & Perp).
  unfold processInput_desired; cbv zeta.
  set (f := headingForward cos sin inversesqrt (radians (camYaw g))) in *.
  set (rt := normalize inversesqrt (cross f (mkvec3 0 1 0))) in *.
  set (v := objectSpeed g * deltaTime g : Q).
  split; [|split; [exact Perp|]].
  - intro window.
    destruct (KEY_W window), (KEY_S window), (KEY_A window), (KEY_D window);
      unfold add, sub, scale; cbn [x y z]; rewrite ?Fy, ?Ry; lra.
  - intros Hf Hr. cbn [KEY_W KEY_S KEY_A KEY_D].
    unfold dot in Hf, Hr, Perp.
    unfold squaredDistance, add, sub, scale; cbn [x y z].
    split.
    + via (v * v * (x f * x f + y f * y f + z f * z f)).
      rewrite Hf. ring.
    + via (v * v * ((x f * x f + y f * y f + z f * z f)
                    + 2 * (x f * x rt + y f * y rt + z f * z rt)
                    + (x rt * x rt + y rt * y rt + z rt * z rt))).
      rewrite Hf, Hr, Perp. ring.
Qed.

End HeadingFacts.

(** At yaw -90 degrees and pitch 30 degrees, distance 3: the camera is
    3 behind the actor and 1.5 above it, at squared distance
    [9 * (1 + 1/4) = 11.25], not 9. *)
Lemma camera_rides_a_cylinder_witness :
  squaredDistance
    (main_camPos KnownAngles.cos KnownAngles.sin KnownAngles.radians
       KnownAngles.inversesqrt raisedGlobals)
    (objectPos raisedGlobals)
  == 11.25
  /\ KnownAngles.sin (KnownAngles.radians (camPitch raisedGlobals)) == 1 / 2
  /\ y (main_camPos KnownAngles.cos KnownAngles.sin KnownAngles.radians
          KnownAngles.inversesqrt raisedGlobals)
     - y (objectPos raisedGlobals)
     == 1.5.
Proof.
  destruct (camera_rides_a_cylinder KnownAngles.cos KnownAngles.sin
              KnownAngles.radians KnownAngles.inversesqrt raisedGlobals)
    as (_ & Hy & Hd).
  - vm_compute. reflexivity.
  - assert (Hs : KnownAngles.sin (KnownAngles.radians (camPitch raisedGlobals))
                 == 1 / 2) by (vm_compute; reflexivity).
    assert (Hc : camDistance raisedGlobals == 3) by (vm_compute; reflexivity).
    split; [|split; [exact Hs|]].
    + rewrite Hd, Hs, Hc. reflexivity.
    + rewrite Hy, Hs, Hc. reflexivity.
Defined.

Lemma diagonal_movement_is_not_normalised_witness :
  squaredDistance
    (processInput_desired HeadingZero.cos HeadingZero.sin HeadingZero.radians
       HeadingZero.inversesqrt (mkWindow true false false true) cornerGlobals)
    (objectPos cornerGlobals)
  == 2 * ((objectSpeed cornerGlobals * deltaTime cornerGlobals)
          * (objectSpeed cornerGlobals * deltaTime cornerGlobals)).
Proof.
  refine (proj2 (proj2 (proj2 (diagonal_movement_is_not_normalised
                                 HeadingZero.cos HeadingZero.sin
                                 HeadingZero.radians HeadingZero.inversesqrt
                                 cornerGlobals)) _ _));
    reflexivity.
Defined.
